(** * Cryptography: a facade over the Web platform's cryptography engine

    A shallow embedding of [src/cryptography.js] and of the platform
    operations it calls.

    - Values.  A JavaScript string is the list of its UTF-16 code units
      ([DOMString]); a [Uint8Array] is a list of bytes.
    - Failure.  A thrown [DOMException] (for the [async] functions: a
      rejected promise) is the [Err] case of [result].
    - Randomness.  [crypto.getRandomValues] reads a tape of bytes supplied
      by the environment ([RandomSource]) and advances it.
    - Encodings.  [btoa], [atob], [TextEncoder], [TextDecoder],
      [String.fromCharCode] and the string iterator are written out from
      the standards that define them (WHATWG Infra and Encoding, RFC 4648,
      ECMA-262). ECMA-262 puts no bound on the arguments of a call, but
      every engine has one and throws a [RangeError] beyond it: the bound
      is a parameter ([JavaScriptEngine]), and
      [String.fromCharCode(...u8a)] throws when the array is longer. The
      AES-GCM limit of [2^39 - 256] plaintext bytes is not modelled: it is
      beyond the longest string an engine builds.
    - Cryptographic cores.  SHA-256, PBKDF2-HMAC-SHA512, the AES counter
      key stream and the GCM tag are the fields of the class
      [SubtleCrypto]; the operations of [crypto.subtle] around them
      (key import checks, ciphertext = C | T, tag verification) follow the
      W3C Web Cryptography API. *)

From Stdlib Require Import String Ascii NArith ZArith List Lia Bool.
From Stdlib.Strings Require Import Byte.
Import ListNotations.

Open Scope N_scope.

(* ================================================================== *)
(** ** Values and failures *)

(** A UTF-16 code unit, a value below [2^16]. *)
Definition code_unit := N.

(** A JavaScript string. *)
Definition DOMString := list code_unit.

(** The contents of a [Uint8Array] or of an [ArrayBuffer]. *)
Definition Uint8Array := list byte.

(** The exceptions the platform operations used here can throw: four
    [DOMException]s, and the engine's own [RangeError]. *)
Inductive DOMException : Type :=
| InvalidCharacterError   (* btoa, atob *)
| OperationError          (* crypto.subtle.encrypt / decrypt / deriveBits *)
| DataError               (* crypto.subtle.importKey *)
| QuotaExceededError      (* crypto.getRandomValues *)
| RangeError.             (* a call with too many arguments *)

(** The error kinds of the specification's taxonomy. The facade neither
    catches nor wraps an exception, so a kind is the name the specification
    gives to the exception that propagates. *)
Inductive ErrorKind : Type :=
| InvalidEncoding
| InvalidKeyMaterial
| AuthenticationFailure
| EnvironmentError
| NotInTaxonomy.          (* the taxonomy has no kind for a RangeError *)

Definition kind_of (e : DOMException) : ErrorKind :=
  match e with
  | InvalidCharacterError => InvalidEncoding
  | OperationError => AuthenticationFailure
  | DataError => InvalidKeyMaterial
  | QuotaExceededError => EnvironmentError
  | RangeError => NotInTaxonomy
  end.

(** The outcome of a call: a value, or the exception thrown. *)
Inductive result (A : Type) : Type :=
| Ok (a : A)
| Err (e : DOMException).

Arguments Ok {A} a.
Arguments Err {A} e.

Definition bind {A B : Type} (r : result A) (k : A -> result B) : result B :=
  match r with
  | Ok a => k a
  | Err e => Err e
  end.

Notation "x <- r ;; k" := (bind r (fun x => k))
  (at level 61, r at next level, right associativity).

(** ToUint8: a number of the source reduced to a byte. *)
Definition byte_of_N (n : N) : byte :=
  match Byte.of_N (n mod 256) with
  | Some b => b
  | None => x00
  end.

Arguments byte_of_N : simpl never.

(** The code units of an ASCII literal, for writing concrete strings. *)
Definition str (s : string) : DOMString :=
  map N_of_ascii (list_ascii_of_string s).

Arguments str s%_string.

(* ================================================================== *)
(** ** Strings: [String.fromCharCode] and the string iterator *)

(** The JavaScript engine: the largest number of arguments one call can
    take. ECMA-262 sets no bound; engines do (some tens or hundreds of
    thousands), and none is below the 64 arguments the facade passes for
    a salt or an IV. *)
Class JavaScriptEngine : Type := {
  max_arguments : N;
  max_arguments_floor : 64 <= max_arguments
}.

(** [String.fromCharCode(...codes)]: one argument per element of the
    array spread into the call, a [RangeError] beyond the engine's bound;
    otherwise ToUint16 of each argument. *)
Definition fromCharCode {JS : JavaScriptEngine} (codes : list N)
  : result DOMString :=
  if N.of_nat (length codes) <=? max_arguments
  then Ok (map (fun n => n mod 0x10000) codes)
  else Err RangeError.

Definition is_lead_surrogate (c : code_unit) : bool :=
  (0xD800 <=? c) && (c <=? 0xDBFF).

Definition is_trail_surrogate (c : code_unit) : bool :=
  (0xDC00 <=? c) && (c <=? 0xDFFF).

(** [[...s]]: the string iterator yields one string per code point, a
    surrogate pair as one string of two code units. *)
Fixpoint string_iterator (s : DOMString) : list DOMString :=
  match s with
  | [] => []
  | c :: rest =>
      match rest with
      | d :: rest' =>
          if is_lead_surrogate c && is_trail_surrogate d
          then [c; d] :: string_iterator rest'
          else [c] :: string_iterator rest
      | [] => [[c]]
      end
  end.

(** [c.charCodeAt(0)]; NaN on the empty string, which ToUint8 maps to 0. *)
Definition charCodeAt0 (c : DOMString) : N := hd 0 c.

(** The number of code points of a string. *)
Definition code_point_length (s : DOMString) : N :=
  N.of_nat (length (string_iterator s)).

(* ================================================================== *)
(** ** Base 64: [btoa] and [atob] *)

Module Base64.

(** Table 1 of RFC 4648, value to character. *)
Definition b64_char (v : N) : code_unit :=
  if v <? 26 then v + 65          (* A-Z *)
  else if v <? 52 then v + 71     (* a-z *)
  else if v <? 62 then v - 4      (* 0-9 *)
  else if v =? 62 then 43         (* + *)
  else 47.                        (* / *)

(** Table 1 of RFC 4648, character to value. *)
Definition b64_index (c : code_unit) : option N :=
  if (65 <=? c) && (c <=? 90) then Some (c - 65)
  else if (97 <=? c) && (c <=? 122) then Some (c - 71)
  else if (48 <=? c) && (c <=? 57) then Some (c + 4)
  else if c =? 43 then Some 62
  else if c =? 47 then Some 63
  else None.

Definition is_b64_char (c : code_unit) : bool :=
  match b64_index c with
  | Some _ => true
  | None => false
  end.

Definition sextet (c : code_unit) : N :=
  match b64_index c with
  | Some v => v
  | None => 0
  end.

(** U+003D (=). *)
Definition pad : code_unit := 61.

(** RFC 4648 section 4: 24-bit groups become four characters; a final
    group of one or two bytes is padded with [=]. *)
Fixpoint base64_encode (bs : list byte) : DOMString :=
  match bs with
  | [] => []
  | [x] =>
      let a := Byte.to_N x in
      [b64_char (a / 4); b64_char ((a mod 4) * 16); pad; pad]
  | [x; y] =>
      let a := Byte.to_N x in
      let b := Byte.to_N y in
      [b64_char (a / 4); b64_char ((a mod 4) * 16 + b / 16);
       b64_char ((b mod 16) * 4); pad]
  | x :: y :: z :: rest =>
      let a := Byte.to_N x in
      let b := Byte.to_N y in
      let c := Byte.to_N z in
      b64_char (a / 4) :: b64_char ((a mod 4) * 16 + b / 16)
        :: b64_char ((b mod 16) * 4 + c / 64) :: b64_char (c mod 64)
        :: base64_encode rest
  end.

(** [btoa(data)]: throws when a code unit is above U+00FF, otherwise
    encodes the bytes the code units stand for. *)
Definition btoa (data : DOMString) : result DOMString :=
  if forallb (fun c => c <=? 255) data
  then Ok (base64_encode (map byte_of_N data))
  else Err InvalidCharacterError.

(** TAB, LF, FF, CR and SPACE. *)
Definition is_ascii_whitespace (c : code_unit) : bool :=
  (c =? 9) || (c =? 10) || (c =? 12) || (c =? 13) || (c =? 32).

(** Removes a final [=], if there is one. *)
Definition strip_one_pad (data : DOMString) : DOMString :=
  if last data 0 =? pad then removelast data else data.

(** Steps 5 to 9 of forgiving-base64 decode: six bits per character go
    into a buffer, emptied as three bytes when it holds 24 bits; a final
    buffer of 12 or 18 bits gives one or two bytes, its last 4 or 2 bits
    dropped. [filled] counts the characters in the buffer. *)
Fixpoint decode_loop (data : DOMString) (buffer : N) (filled : nat)
  : list byte :=
  match data with
  | [] =>
      match filled with
      | 2%nat => [byte_of_N (buffer / 16)]
      | 3%nat => [byte_of_N (buffer / 4 / 256); byte_of_N (buffer / 4)]
      | _ => []
      end
  | c :: rest =>
      let buffer := buffer * 64 + sextet c in
      match filled with
      | 3%nat =>
          byte_of_N (buffer / 65536) :: byte_of_N (buffer / 256)
            :: byte_of_N buffer :: decode_loop rest 0 0
      | _ => decode_loop rest buffer (S filled)
      end
  end.

(** Steps 1 and 2 of forgiving-base64 decode: ASCII whitespace is removed;
    if the code point length is then a multiple of 4, one or two final [=]
    are removed. *)
Definition forgiving_strip (data : DOMString) : DOMString :=
  let data := filter (fun c => negb (is_ascii_whitespace c)) data in
  if code_point_length data mod 4 =? 0
  then strip_one_pad (strip_one_pad data)
  else data.

(** Forgiving-base64 decode (WHATWG Infra); [None] is failure. Steps 3
    and 4: what is left after stripping must not have a code point length
    of 1 modulo 4 and must be made of alphabet characters only. *)
Definition forgiving_base64_decode (data : DOMString) : option (list byte) :=
  let data := forgiving_strip data in
  if code_point_length data mod 4 =? 1 then None
  else if negb (forallb is_b64_char data) then None
  else Some (decode_loop data 0 0).

(** [atob(data)]: the decoded bytes as a string of code units below 256,
    or an [InvalidCharacterError]. *)
Definition atob (data : DOMString) : result DOMString :=
  match forgiving_base64_decode data with
  | Some bytes => Ok (map Byte.to_N bytes)
  | None => Err InvalidCharacterError
  end.

(** Standard base 64 as a grammar (RFC 4648 section 4): groups of four
    alphabet characters, the last group possibly [xx==] or [xxx=]. *)
Fixpoint valid_b64 (s : DOMString) : bool :=
  match s with
  | [] => true
  | c0 :: c1 :: c2 :: c3 :: rest =>
      is_b64_char c0 && is_b64_char c1 &&
      match rest with
      | [] =>
          (is_b64_char c2 && is_b64_char c3)
          || (is_b64_char c2 && (c3 =? pad))
          || ((c2 =? pad) && (c3 =? pad))
      | _ => is_b64_char c2 && is_b64_char c3 && valid_b64 rest
      end
  | _ => false
  end.

(** Canonical base 64 (RFC 4648 section 3.5): valid, and the bits a padded
    final group does not use are zero. *)
Fixpoint canonical_b64 (s : DOMString) : bool :=
  match s with
  | [] => true
  | c0 :: c1 :: c2 :: c3 :: rest =>
      is_b64_char c0 && is_b64_char c1 &&
      match rest with
      | [] =>
          (is_b64_char c2 && is_b64_char c3)
          || (is_b64_char c2 && (c3 =? pad) && (sextet c2 mod 4 =? 0))
          || ((c2 =? pad) && (c3 =? pad) && (sextet c1 mod 16 =? 0))
      | _ => is_b64_char c2 && is_b64_char c3 && canonical_b64 rest
      end
  | _ => false
  end.

(** The padding a standard encoding can end with. *)
Definition is_padding (p : DOMString) : Prop :=
  p = [] \/ p = [pad] \/ p = [pad; pad].

End Base64.

(* ================================================================== *)
(** ** UTF-8: [TextEncoder] and [TextDecoder] *)

Module UTF8.

(** U+FFFD, which replaces what cannot be encoded or decoded. *)
Definition replacement : N := 65533.

(** U+FEFF, the byte order mark. *)
Definition BOM : N := 65279.

(** Conversion of a string to scalar values (WHATWG Infra): a surrogate
    pair is one code point, a surrogate outside a pair becomes U+FFFD. *)
Fixpoint to_scalar_values (s : DOMString) : list N :=
  match s with
  | [] => []
  | c :: rest =>
      if is_lead_surrogate c then
        match rest with
        | d :: rest' =>
            if is_trail_surrogate d
            then (0x10000 + (c - 0xD800) * 0x400 + (d - 0xDC00))
                   :: to_scalar_values rest'
            else replacement :: to_scalar_values rest
        | [] => [replacement]
        end
      else if is_trail_surrogate c then replacement :: to_scalar_values rest
      else c :: to_scalar_values rest
  end.

(** The UTF-8 encoder: one to four bytes per scalar value. *)
Definition encode_scalar (cp : N) : list N :=
  if cp <=? 0x7F then [cp]
  else if cp <=? 0x7FF then [0xC0 + cp / 64; 0x80 + cp mod 64]
  else if cp <=? 0xFFFF then
    [0xE0 + cp / 4096; 0x80 + (cp / 64) mod 64; 0x80 + cp mod 64]
  else
    [0xF0 + cp / 262144; 0x80 + (cp / 4096) mod 64;
     0x80 + (cp / 64) mod 64; 0x80 + cp mod 64].

(** [new TextEncoder().encode(s)]. *)
Definition TextEncoder_encode (s : DOMString) : Uint8Array :=
  map byte_of_N (flat_map encode_scalar (to_scalar_values s)).

(** The state of the UTF-8 decoder (WHATWG Encoding, 8.1.1). *)
Record decoder : Type := {
  code_point : N;
  bytes_seen : N;
  bytes_needed : N;
  lower_boundary : N;
  upper_boundary : N
}.

Definition initial : decoder :=
  {| code_point := 0; bytes_seen := 0; bytes_needed := 0;
     lower_boundary := 0x80; upper_boundary := 0xBF |}.

Definition expecting (cp needed lower upper : N) : decoder :=
  {| code_point := cp; bytes_seen := 0; bytes_needed := needed;
     lower_boundary := lower; upper_boundary := upper |}.

(** Step 3 of the decoder's handler, taken when no byte is pending: the
    new state and the code points emitted (U+FFFD for an error, the
    decoder's error mode being replacement). *)
Definition lead_byte (b : N) : decoder * list N :=
  if b <=? 0x7F then (initial, [b])
  else if (0xC2 <=? b) && (b <=? 0xDF) then
    (expecting (b - 0xC0) 1 0x80 0xBF, [])
  else if (0xE0 <=? b) && (b <=? 0xEF) then
    (expecting (b - 0xE0) 2 (if b =? 0xE0 then 0xA0 else 0x80)
       (if b =? 0xED then 0x9F else 0xBF), [])
  else if (0xF0 <=? b) && (b <=? 0xF4) then
    (expecting (b - 0xF0) 3 (if b =? 0xF0 then 0x90 else 0x80)
       (if b =? 0xF4 then 0x8F else 0xBF), [])
  else (initial, [replacement]).

(** The decoder run over the bytes. A byte outside the boundaries ends the
    pending sequence with an error and is read again as a first byte
    (step 4); at the end of the input a pending sequence is an error
    (step 1). *)
Fixpoint decode_bytes (st : decoder) (bs : list N) : list N :=
  match bs with
  | [] => if bytes_needed st =? 0 then [] else [replacement]
  | b :: rest =>
      if bytes_needed st =? 0 then
        let '(st', out) := lead_byte b in out ++ decode_bytes st' rest
      else if (b <? lower_boundary st) || (upper_boundary st <? b) then
        let '(st', out) := lead_byte b in
        replacement :: out ++ decode_bytes st' rest
      else
        let cp := code_point st * 64 + b mod 64 in
        if bytes_seen st + 1 =? bytes_needed st
        then cp :: decode_bytes initial rest
        else
          decode_bytes
            {| code_point := cp; bytes_seen := bytes_seen st + 1;
               bytes_needed := bytes_needed st;
               lower_boundary := 0x80; upper_boundary := 0xBF |} rest
  end.

(** A scalar value as UTF-16 code units. *)
Definition utf16_units (cp : N) : DOMString :=
  if cp <? 0x10000 then [cp]
  else
    [0xD800 + (cp - 0x10000) / 0x400; 0xDC00 + (cp - 0x10000) mod 0x400].

(** The decoder's output with a first U+FEFF dropped: [ignoreBOM] is false
    unless the constructor is told otherwise. *)
Definition drop_BOM (cps : list N) : list N :=
  match cps with
  | c :: rest => if c =? BOM then rest else cps
  | [] => []
  end.

(** [new TextDecoder().decode(bytes)]: UTF-8, errors replaced, BOM
    dropped. *)
Definition TextDecoder_decode (bytes : Uint8Array) : DOMString :=
  flat_map utf16_units
    (drop_BOM (decode_bytes initial (map Byte.to_N bytes))).

(** A Unicode scalar value: a code point that is not a surrogate. *)
Definition scalar_value (cp : N) : Prop :=
  cp < 0xD800 \/ (0xDFFF < cp /\ cp <= 0x10FFFF).

(** A string of 16-bit code units every surrogate of which is half of a
    pair. *)
Fixpoint well_formed (s : DOMString) : bool :=
  match s with
  | [] => true
  | c :: rest =>
      if is_lead_surrogate c then
        match rest with
        | d :: rest' => is_trail_surrogate d && well_formed rest'
        | [] => false
        end
      else negb (is_trail_surrogate c) && (c <? 0x10000) && well_formed rest
  end.

(** The states the decoder can be in between two bytes: nothing pending,
    or a sequence whose code point so far can only end as a scalar value
    of the length its first byte announced. *)
Definition pending_ok (st : decoder) : Prop :=
  let cp := code_point st in
  let lo := lower_boundary st in
  let hi := upper_boundary st in
  bytes_needed st = 0
  \/ (0x80 <= lo /\ hi <= 0xBF
      /\ ((bytes_needed st = 1 /\ bytes_seen st = 0 /\ 2 <= cp <= 31)
          \/ (bytes_needed st = 2 /\ bytes_seen st = 0 /\ cp <= 15
              /\ (cp = 0 -> 0xA0 <= lo) /\ (cp = 13 -> hi <= 0x9F))
          \/ (bytes_needed st = 2 /\ bytes_seen st = 1
              /\ 0x20 <= cp <= 0x3FF /\ ~ 0x360 <= cp <= 0x37F)
          \/ (bytes_needed st = 3 /\ bytes_seen st = 0 /\ cp <= 4
              /\ (cp = 0 -> 0x90 <= lo) /\ (cp = 4 -> hi <= 0x8F))
          \/ (bytes_needed st = 3 /\ bytes_seen st = 1
              /\ 0x10 <= cp <= 0x10F)
          \/ (bytes_needed st = 3 /\ bytes_seen st = 2
              /\ 0x400 <= cp <= 0x43FF))).

End UTF8.

(* ================================================================== *)
(** ** The platform: random values and [crypto.subtle] *)

(** The secure random source: a tape of bytes the environment supplies,
    and how much of it has been handed out. *)
Record RandomSource : Type := {
  entropy : nat -> byte;
  consumed : nat
}.

(** The bytes at positions [consumed rs], ..., [consumed rs + n - 1]. *)
Definition window (rs : RandomSource) (n : nat) : list byte :=
  map (entropy rs) (seq (consumed rs) n).

Definition advance (rs : RandomSource) (n : nat) : RandomSource :=
  {| entropy := entropy rs; consumed := (consumed rs + n)%nat |}.

(** [crypto.getRandomValues(new Uint8Array(n))]: at most 65536 bytes a
    call. *)
Definition getRandomValues (n : nat) (rs : RandomSource)
  : result Uint8Array * RandomSource :=
  if 65536 <? N.of_nat n then (Err QuotaExceededError, rs)
  else (Ok (window rs n), advance rs n).

(** The cryptographic cores of the engine. *)
Class SubtleCrypto : Type := {
  (** The SHA-256 digest of a message. *)
  SHA_256 : list byte -> list byte;
  (** PBKDF2 with HMAC-SHA-512: password, salt, iteration count, number
      of bytes to derive. *)
  PBKDF2_HMAC_SHA512 : list byte -> list byte -> N -> N -> list byte;
  (** Byte [i] of the key stream GCTR applies under a key and an IV. *)
  AES_GCTR_keystream : list byte -> list byte -> nat -> byte;
  (** The GCM authentication tag of a ciphertext under a key and an IV,
      with no additional data. *)
  AES_GCM_tag : list byte -> list byte -> list byte -> list byte
}.

(** What the standards promise of the cores: the lengths of their
    outputs. *)
Class Conforming (E : SubtleCrypto) : Prop := {
  SHA_256_length : forall m, length (SHA_256 m) = 32%nat;
  PBKDF2_length :
    forall password salt c dkLen,
      length (PBKDF2_HMAC_SHA512 password salt c dkLen) = N.to_nat dkLen;
  AES_GCM_tag_length :
    forall key iv c, length (AES_GCM_tag key iv c) = 16%nat
}.

Definition byte_xor (a b : byte) : byte :=
  let '(a0, (a1, (a2, (a3, (a4, (a5, (a6, a7))))))) := Byte.to_bits a in
  let '(b0, (b1, (b2, (b3, (b4, (b5, (b6, b7))))))) := Byte.to_bits b in
  Byte.of_bits
    (xorb a0 b0, (xorb a1 b1, (xorb a2 b2, (xorb a3 b3,
    (xorb a4 b4, (xorb a5 b5, (xorb a6 b6, xorb a7 b7))))))).

Definition bytes_eqb (x y : list byte) : bool :=
  if list_eq_dec Byte.byte_eq_dec x y then true else false.

Section Engine.

Context {JS : JavaScriptEngine} {E : SubtleCrypto}.

(** GCTR (NIST SP 800-38D, 6.5): the data xored with the key stream,
    byte [i] with byte [i] from position [from] on. *)
Fixpoint GCTR_from (from : nat) (key iv data : list byte) : list byte :=
  match data with
  | [] => []
  | x :: rest =>
      byte_xor x (AES_GCTR_keystream key iv from)
        :: GCTR_from (S from) key iv rest
  end.

Definition GCTR : list byte -> list byte -> list byte -> list byte :=
  GCTR_from 0.

(** The tag length in bytes: [tagLength] is left at its default, 128
    bits. *)
Definition tag_bytes : nat := 16.

(** [importKey("raw", data, "PBKDF2", false, ["deriveBits"])]: any bytes
    are key material. *)
Definition importKey_PBKDF2 (data : list byte) : result (list byte) :=
  Ok data.

(** [deriveBits({name: "PBKDF2", hash: "SHA-512", salt, iterations}, key,
    length)]. *)
Definition deriveBits_PBKDF2 (salt : list byte) (iterations : N)
    (key : list byte) (length : N) : result (list byte) :=
  if negb (length mod 8 =? 0) then Err OperationError
  else if iterations =? 0 then Err OperationError
  else Ok (PBKDF2_HMAC_SHA512 key salt iterations (length / 8)).

(** [digest("SHA-256", data)]. *)
Definition digest_SHA_256 (data : list byte) : result (list byte) :=
  Ok (SHA_256 data).

(** [importKey("raw", data, {name: "AES-GCM", ...}, false, usages)]: the
    key is 128, 192 or 256 bits long. *)
Definition importKey_AES_GCM (data : list byte) : result (list byte) :=
  if (length data =? 16)%nat || (length data =? 24)%nat
     || (length data =? 32)%nat
  then Ok data
  else Err DataError.

(** [encrypt({name: "AES-GCM", iv}, key, plaintext)]: the ciphertext C
    followed by the tag T. *)
Definition encrypt_AES_GCM (iv key plaintext : list byte)
  : result (list byte) :=
  let C := GCTR key iv plaintext in
  Ok (C ++ AES_GCM_tag key iv C).

(** Whether the last 16 bytes of [data] are the tag of what precedes
    them. *)
Definition tag_verifies (iv key data : list byte) : bool :=
  (tag_bytes <=? length data)%nat
  && bytes_eqb (skipn (length data - tag_bytes) data)
       (AES_GCM_tag key iv (firstn (length data - tag_bytes) data)).

(** [decrypt({name: "AES-GCM", iv}, key, data)]: the tag is split off and
    verified; an [OperationError] when [data] is shorter than a tag or the
    tag does not verify. *)
Definition decrypt_AES_GCM (iv key data : list byte) : result (list byte) :=
  if tag_verifies iv key data
  then Ok (GCTR key iv (firstn (length data - tag_bytes) data))
  else Err OperationError.

(* ================================================================== *)
(** ** The facade, [src/cryptography.js] *)

(** [u8a2b64(u8a)]. *)
Definition u8a2b64 (u8a : Uint8Array) : result DOMString :=
  characters <- fromCharCode (map Byte.to_N u8a) ;;
  Base64.btoa characters.

(** [b642u8a(b64)]. *)
Definition b642u8a (b64 : DOMString) : result Uint8Array :=
  s <- Base64.atob b64 ;;
  Ok (map (fun c => byte_of_N (charCodeAt0 c)) (string_iterator s)).

(** [hash(text, salt)]. *)
Definition hash (text salt : DOMString) : result DOMString :=
  key <- importKey_PBKDF2 (UTF8.TextEncoder_encode text) ;;
  salt_bytes <- b642u8a salt ;;
  bits <- deriveBits_PBKDF2 salt_bytes 1000 key 512 ;;
  u8a2b64 bits.

(** [salt()]. *)
Definition salt (rs : RandomSource) : result DOMString * RandomSource :=
  let '(values, rs') := getRandomValues 64 rs in
  (u8a <- values ;; u8a2b64 u8a, rs').

(** The object [encrypt] returns. *)
Record Encryption : Type := {
  iv : DOMString;
  ciphertext : DOMString
}.

(** [encrypt(plaintext, secret)]. *)
Definition encrypt (plaintext secret : DOMString) (rs : RandomSource)
  : result Encryption * RandomSource :=
  let '(values, rs') := getRandomValues 64 rs in
  (algorithm_iv <- values ;;
   digest <- digest_SHA_256 (UTF8.TextEncoder_encode secret) ;;
   key <- importKey_AES_GCM digest ;;
   encryption <-
     encrypt_AES_GCM algorithm_iv key (UTF8.TextEncoder_encode plaintext) ;;
   iv64 <- u8a2b64 algorithm_iv ;;
   ciphertext64 <- u8a2b64 encryption ;;
   Ok {| iv := iv64; ciphertext := ciphertext64 |},
   rs').

(** [decrypt(ciphertext, iv, secret)]. *)
Definition decrypt (ciphertext iv secret : DOMString) : result DOMString :=
  algorithm_iv <- b642u8a iv ;;
  digest <- digest_SHA_256 (UTF8.TextEncoder_encode secret) ;;
  key <- importKey_AES_GCM digest ;;
  data <- b642u8a ciphertext ;;
  decryption <- decrypt_AES_GCM algorithm_iv key data ;;
  Ok (UTF8.TextDecoder_decode decryption).

End Engine.

(* ================================================================== *)
(** ** An engine to run the facade on *)

(** A stand-in for the cryptographic cores, with outputs of the right
    lengths and no cryptographic strength: every core is a checksum of its
    inputs spread over the bytes it returns. It lets the facade be run on
    concrete inputs. *)
Definition checksum (bs : list byte) : N :=
  fold_left (fun acc b => (acc * 31 + Byte.to_N b + 1) mod 65521) bs 7.

Definition spread (seed : N) (n : nat) : list byte :=
  map (fun i => byte_of_N (seed * (N.of_nat i + 1) + N.of_nat i)) (seq 0 n).

Definition checksum_engine : SubtleCrypto :=
  {| SHA_256 := fun m => spread (checksum m) 32;
     PBKDF2_HMAC_SHA512 :=
       fun password salt c dkLen =>
         spread (checksum password * 3 + checksum salt * 5 + c)
           (N.to_nat dkLen);
     AES_GCTR_keystream :=
       fun key iv i => byte_of_N (checksum key + checksum iv + N.of_nat i);
     AES_GCM_tag :=
       fun key iv c =>
         spread (checksum key + 2 * checksum iv + 3 * checksum c) 16 |}.

(** An engine whose calls take up to 65536 arguments, the bound of
    JavaScriptCore. *)
Definition engine_65536 : JavaScriptEngine :=
  {| max_arguments := 65536;
     max_arguments_floor := fun H : (64 ?= 65536) = Gt =>
       eq_ind Lt (fun c => match c with Gt => False | _ => True end) I Gt H
  |}.

(** A random source that only ever yields zero bytes, and one that counts:
    both are outcomes a random source can have. *)
Definition zero_source : RandomSource :=
  {| entropy := fun _ => x00; consumed := 0 |}.

Definition counting_source : RandomSource :=
  {| entropy := fun i => byte_of_N (N.of_nat i); consumed := 0 |}.

(* ================================================================== *)
(** ** Bytes *)

(** [lia] over [N] with division and remainder by constants. *)
Ltac nlia := zify; Z.to_euclidean_division_equations; lia.

Lemma to_N_lt (b : byte) : Byte.to_N b < 256.
Proof. pose proof (Byte.to_N_bounded b). lia. Qed.

Lemma to_N_byte_of_N_mod (n : N) : Byte.to_N (byte_of_N n) = n mod 256.
Proof.
  unfold byte_of_N.
  destruct (Byte.of_N (n mod 256)) as [b|] eqn:Hb.
  - now apply Byte.to_of_N.
  - apply Byte.of_N_None_iff in Hb.
    pose proof (N.mod_upper_bound n 256). lia.
Qed.

Lemma to_N_byte_of_N (n : N) : n < 256 -> Byte.to_N (byte_of_N n) = n.
Proof.
  intros Hn. rewrite to_N_byte_of_N_mod. now apply N.mod_small.
Qed.

Lemma to_N_inj (a b : byte) : Byte.to_N a = Byte.to_N b -> a = b.
Proof.
  intros H. pose proof (Byte.of_to_N a) as Ha.
  rewrite H, Byte.of_to_N in Ha. now injection Ha.
Qed.

Lemma byte_of_N_to_N (b : byte) : byte_of_N (Byte.to_N b) = b.
Proof.
  apply to_N_inj. apply to_N_byte_of_N, to_N_lt.
Qed.

(** A number is turned into the byte it is congruent to. *)
Lemma byte_of_N_eq (n : N) (b : byte) :
  n mod 256 = Byte.to_N b -> byte_of_N n = b.
Proof.
  intros H. apply to_N_inj. now rewrite to_N_byte_of_N_mod.
Qed.

Lemma map_byte_of_N_to_N (bs : list byte) :
  map byte_of_N (map Byte.to_N bs) = bs.
Proof.
  induction bs as [|b bs IH]; cbn [map]; [reflexivity|].
  now rewrite byte_of_N_to_N, IH.
Qed.

Lemma map_to_N_byte_of_N (l : list N) :
  Forall (fun n => n < 256) l -> map Byte.to_N (map byte_of_N l) = l.
Proof.
  induction 1 as [|n l Hn _ IH]; cbn [map]; [reflexivity|].
  now rewrite to_N_byte_of_N, IH.
Qed.

Lemma byte_xor_involutive (a k : byte) : byte_xor (byte_xor a k) k = a.
Proof.
  unfold byte_xor.
  destruct (Byte.to_bits a) as (a0 & a1 & a2 & a3 & a4 & a5 & a6 & a7) eqn:Ha.
  destruct (Byte.to_bits k) as (k0 & k1 & k2 & k3 & k4 & k5 & k6 & k7) eqn:Hk.
  rewrite Byte.to_bits_of_bits.
  rewrite !xorb_assoc, !xorb_nilpotent, !xorb_false_r.
  rewrite <- Ha. apply Byte.of_bits_to_bits.
Qed.

Lemma bytes_eqb_refl (x : list byte) : bytes_eqb x x = true.
Proof.
  unfold bytes_eqb. destruct (list_eq_dec Byte.byte_eq_dec x x); congruence.
Qed.

Lemma bytes_eqb_eq (x y : list byte) : bytes_eqb x y = true <-> x = y.
Proof.
  unfold bytes_eqb. destruct (list_eq_dec Byte.byte_eq_dec x y); split;
    congruence.
Qed.

(** Lists three and four elements at a time. *)
Lemma list_ind3 {A : Type} (P : list A -> Prop) :
  P [] -> (forall a, P [a]) -> (forall a b, P [a; b]) ->
  (forall a b c l, P l -> P (a :: b :: c :: l)) ->
  forall l, P l.
Proof.
  intros H0 H1 H2 H3.
  fix IH 1.
  intros [|a [|b [|c l]]];
    [apply H0 | apply H1 | apply H2 | apply H3, IH].
Qed.

Lemma list_ind4 {A : Type} (P : list A -> Prop) :
  P [] -> (forall a, P [a]) -> (forall a b, P [a; b]) ->
  (forall a b c, P [a; b; c]) ->
  (forall a b c d l, P l -> P (a :: b :: c :: d :: l)) ->
  forall l, P l.
Proof.
  intros H0 H1 H2 H3 H4.
  fix IH 1.
  intros [|a [|b [|c [|d l]]]];
    [apply H0 | apply H1 | apply H2 | apply H3 | apply H4, IH].
Qed.

(* ================================================================== *)
(** ** Base 64 *)

Import Base64.

(** Decides the comparisons of the goal, leaving the cases that are
    arithmetically possible. *)
Ltac break_tests :=
  repeat (match goal with
          | |- context [?a <? ?b] => destruct (N.ltb_spec a b)
          | |- context [?a <=? ?b] => destruct (N.leb_spec a b)
          | |- context [?a =? ?b] => destruct (N.eqb_spec a b)
          end; cbn [andb orb negb]; try lia).

Lemma b64_index_char (v : N) : v < 64 -> b64_index (b64_char v) = Some v.
Proof.
  intros Hv. unfold b64_char.
  destruct (N.ltb_spec v 26); [|destruct (N.ltb_spec v 52);
    [|destruct (N.ltb_spec v 62); [|destruct (N.eqb_spec v 62)]]];
    unfold b64_index; break_tests; f_equal; lia.
Qed.

Lemma sextet_char (v : N) : v < 64 -> sextet (b64_char v) = v.
Proof. intros Hv. unfold sextet. now rewrite b64_index_char. Qed.

Lemma is_b64_char_char (v : N) : v < 64 -> is_b64_char (b64_char v) = true.
Proof. intros Hv. unfold is_b64_char. now rewrite b64_index_char. Qed.

Lemma b64_index_bound (c v : N) : b64_index c = Some v -> v < 64.
Proof.
  unfold b64_index. break_tests; intros [= <-]; lia.
Qed.

Lemma b64_char_index (c v : N) : b64_index c = Some v -> b64_char v = c.
Proof.
  unfold b64_index. break_tests; intros [= <-]; unfold b64_char;
    break_tests.
Qed.

Lemma sextet_bound (c : N) : sextet c < 64.
Proof.
  unfold sextet. destruct (b64_index c) eqn:H; [|lia].
  now apply b64_index_bound in H.
Qed.

Lemma b64_char_sextet (c : N) : is_b64_char c = true -> b64_char (sextet c) = c.
Proof.
  unfold is_b64_char, sextet. destruct (b64_index c) eqn:H; [|discriminate].
  intros _. now apply b64_char_index.
Qed.

Lemma b64_char_not_pad (c : N) : is_b64_char c = true -> (c =? pad) = false.
Proof.
  unfold is_b64_char, b64_index, pad. break_tests; discriminate.
Qed.

Lemma b64_char_not_whitespace (c : N) :
  is_b64_char c = true -> is_ascii_whitespace c = false.
Proof.
  unfold is_b64_char, b64_index, is_ascii_whitespace.
  break_tests; discriminate.
Qed.

Lemma b64_char_not_lead (c : N) :
  is_b64_char c = true -> is_lead_surrogate c = false.
Proof.
  unfold is_b64_char, b64_index, is_lead_surrogate.
  break_tests; discriminate.
Qed.

(** A string without lead surrogates has as many code points as code
    units. *)
Lemma code_point_length_units (s : DOMString) :
  forallb (fun c => negb (is_lead_surrogate c)) s = true ->
  code_point_length s = N.of_nat (length s).
Proof.
  unfold code_point_length. intros H. f_equal.
  induction s as [|c s IH]; [reflexivity|].
  cbn [forallb] in H. apply andb_prop in H as [Hc Hs].
  apply negb_true_iff in Hc.
  cbn [string_iterator]. destruct s as [|d s]; [reflexivity|].
  rewrite Hc. cbn [andb length]. now rewrite IH.
Qed.

Lemma code_point_length_padded (body p : DOMString) :
  forallb is_b64_char body = true -> is_padding p ->
  code_point_length (body ++ p) = N.of_nat (length (body ++ p)).
Proof.
  intros Hb Hp. apply code_point_length_units.
  rewrite forallb_app. apply andb_true_intro. split.
  - apply forallb_forall. intros c Hc. rewrite forallb_forall in Hb.
    now rewrite b64_char_not_lead; auto.
  - destruct Hp as [-> | [-> | ->]]; reflexivity.
Qed.

Lemma filter_all {A : Type} (f : A -> bool) (l : list A) :
  forallb f l = true -> filter f l = l.
Proof.
  induction l as [|a l IH]; cbn [forallb filter]; [reflexivity|].
  intros [Ha Hl]%andb_prop. now rewrite Ha, IH.
Qed.

Lemma last_not_pad (body : DOMString) :
  forallb is_b64_char body = true -> (last body 0 =? pad) = false.
Proof.
  induction body as [|c [|d body] IH]; intros H.
  - reflexivity.
  - cbn [last]. cbn [forallb] in H. apply andb_prop in H as [H _].
    now apply b64_char_not_pad.
  - change (last (c :: d :: body) 0) with (last (d :: body) 0).
    apply IH. cbn [forallb] in H |- *. now apply andb_prop in H as [_ H].
Qed.

Lemma strip_one_pad_body (body : DOMString) :
  forallb is_b64_char body = true -> strip_one_pad body = body.
Proof.
  intros H. unfold strip_one_pad. now rewrite last_not_pad.
Qed.

Lemma strip_one_pad_snoc (data : DOMString) :
  strip_one_pad (data ++ [pad]) = data.
Proof.
  unfold strip_one_pad. rewrite last_last, N.eqb_refl.
  apply removelast_last.
Qed.

Lemma strip_padding (body p : DOMString) :
  forallb is_b64_char body = true -> is_padding p ->
  strip_one_pad (strip_one_pad (body ++ p)) = body.
Proof.
  intros Hb [-> | [-> | ->]].
  - rewrite app_nil_r. now rewrite !(strip_one_pad_body body).
  - rewrite strip_one_pad_snoc. now apply strip_one_pad_body.
  - change [pad; pad] with ([pad] ++ [pad]). rewrite app_assoc.
    now rewrite !strip_one_pad_snoc.
Qed.

Lemma no_whitespace_padded (body p : DOMString) :
  forallb is_b64_char body = true -> is_padding p ->
  filter (fun c => negb (is_ascii_whitespace c)) (body ++ p) = body ++ p.
Proof.
  intros Hb Hp. apply filter_all. rewrite forallb_app. apply andb_true_intro.
  split.
  - apply forallb_forall. intros c Hc.
    rewrite forallb_forall in Hb. now rewrite b64_char_not_whitespace; auto.
  - destruct Hp as [-> | [-> | ->]]; reflexivity.
Qed.

(** Forgiving-base64 decode of alphabet characters followed by padding,
    the whole a multiple of four long. *)
Lemma forgiving_decode_padded (body p : DOMString) :
  forallb is_b64_char body = true -> is_padding p ->
  N.of_nat (length (body ++ p)) mod 4 = 0 ->
  forgiving_base64_decode (body ++ p) = Some (decode_loop body 0 0).
Proof.
  intros Hb Hp Hlen.
  unfold forgiving_base64_decode, forgiving_strip.
  rewrite no_whitespace_padded by assumption.
  rewrite code_point_length_padded by assumption.
  rewrite Hlen, N.eqb_refl, strip_padding by assumption.
  rewrite <- (app_nil_r body) at 1.
  rewrite code_point_length_padded, app_nil_r by (assumption || now left).
  assert (Hmod : (N.of_nat (length body) mod 4 =? 1) = false).
  { apply N.eqb_neq. rewrite length_app in Hlen.
    destruct Hp as [-> | [-> | ->]]; cbn [length] in Hlen; nlia. }
  now rewrite Hmod, Hb.
Qed.

(** An unpadded string of alphabet characters whose length is not 1
    modulo 4 is decoded too. *)
Lemma forgiving_decode_unpadded (body : DOMString) :
  forallb is_b64_char body = true ->
  N.of_nat (length body) mod 4 <> 1 ->
  forgiving_base64_decode body = Some (decode_loop body 0 0).
Proof.
  intros Hb Hlen.
  unfold forgiving_base64_decode, forgiving_strip.
  replace (filter _ body) with body.
  2:{ symmetry. apply filter_all, forallb_forall. intros c Hc.
      rewrite forallb_forall in Hb. now rewrite b64_char_not_whitespace; auto. }
  rewrite !(strip_one_pad_body body) by assumption.
  assert (CL : code_point_length body = N.of_nat (length body)).
  { rewrite <- (app_nil_r body).
    apply code_point_length_padded; [assumption|now left]. }
  apply N.eqb_neq in Hlen.
  destruct (_ =? 0); rewrite CL, Hlen, Hb; reflexivity.
Qed.

Lemma decode_loop_group (c0 c1 c2 c3 : code_unit) (rest : DOMString) :
  decode_loop (c0 :: c1 :: c2 :: c3 :: rest) 0 0 =
  let n := ((sextet c0 * 64 + sextet c1) * 64 + sextet c2) * 64 + sextet c3 in
  byte_of_N (n / 65536) :: byte_of_N (n / 256) :: byte_of_N n
    :: decode_loop rest 0 0.
Proof. reflexivity. Qed.

(** Three bytes and the four sextets they are cut into. *)
Lemma sextets_of_bytes (a b c : N) :
  ((a / 4 * 64 + (a mod 4 * 16 + b / 16)) * 64 + (b mod 16 * 4 + c / 64)) * 64
    + c mod 64 = a * 65536 + b * 256 + c.
Proof. nlia. Qed.

Lemma bytes_of_sextets (a b c : N) :
  a < 256 -> b < 256 -> c < 256 ->
  let n := a * 65536 + b * 256 + c in
  (n / 65536) mod 256 = a /\ (n / 256) mod 256 = b /\ n mod 256 = c.
Proof. intros Ha Hb Hc n. subst n. repeat split; nlia. Qed.

Lemma sextet_ranges (a b c : N) :
  a < 256 -> b < 256 -> c < 256 ->
  a / 4 < 64 /\ a mod 4 * 16 + b / 16 < 64 /\ b mod 16 * 4 + c / 64 < 64
  /\ c mod 64 < 64 /\ a mod 4 * 16 < 64 /\ b mod 16 * 4 < 64.
Proof. intros Ha Hb Hc. repeat split; nlia. Qed.

(** The encoder's output: alphabet characters whose decoding is the input,
    then padding up to a multiple of four. *)
Lemma base64_encode_shape (bs : list byte) :
  exists body p,
    base64_encode bs = body ++ p
    /\ forallb is_b64_char body = true
    /\ is_padding p
    /\ N.of_nat (length (body ++ p)) mod 4 = 0
    /\ decode_loop body 0 0 = bs.
Proof.
  induction bs as [|x|x y|x y z bs IH] using list_ind3.
  - exists [], []. repeat split. now left.
  - pose proof (to_N_lt x) as Hx.
    destruct (sextet_ranges (Byte.to_N x) 0 0) as (H0 & _ & _ & _ & H1 & _);
      try lia.
    eexists [_; _], [pad; pad]. split; [reflexivity|].
    split; [|split; [right; now right|split; [reflexivity|]]].
    + cbn [forallb]. now rewrite !is_b64_char_char.
    + cbn [decode_loop]. rewrite !sextet_char by assumption.
      f_equal. apply byte_of_N_eq. nlia.
  - pose proof (to_N_lt x) as Hx. pose proof (to_N_lt y) as Hy.
    destruct (sextet_ranges (Byte.to_N x) (Byte.to_N y) 0)
      as (H0 & H1 & _ & _ & _ & H2); try lia.
    eexists [_; _; _], [pad]. split; [reflexivity|].
    split; [|split; [right; now left|split; [reflexivity|]]].
    + cbn [forallb]. now rewrite !is_b64_char_char.
    + cbn [decode_loop]. rewrite !sextet_char by assumption.
      f_equal; [|f_equal]; apply byte_of_N_eq; nlia.
  - destruct IH as (body & p & Henc & Hbody & Hp & Hlen & Hdec).
    pose proof (to_N_lt x) as Hx. pose proof (to_N_lt y) as Hy.
    pose proof (to_N_lt z) as Hz.
    destruct (sextet_ranges (Byte.to_N x) (Byte.to_N y) (Byte.to_N z))
      as (H0 & H1 & H2 & H3 & _ & _); try assumption.
    eexists (_ :: _ :: _ :: _ :: body), p.
    split; [cbn [base64_encode]; rewrite Henc; reflexivity|].
    split; [|split; [assumption|split]].
    + cbn [forallb]. now rewrite !is_b64_char_char, Hbody.
    + cbn [length app] in Hlen |- *. nlia.
    + rewrite decode_loop_group. cbv zeta.
      rewrite !sextet_char, sextets_of_bytes, Hdec by assumption.
      destruct (bytes_of_sextets (Byte.to_N x) (Byte.to_N y) (Byte.to_N z))
        as (Ea & Eb & Ec); try assumption.
      f_equal; [|f_equal; [|f_equal]]; now apply byte_of_N_eq.
Qed.

Lemma forgiving_decode_encode (bs : list byte) :
  forgiving_base64_decode (base64_encode bs) = Some bs.
Proof.
  destruct (base64_encode_shape bs) as (body & p & -> & Hb & Hp & Hlen & Hdec).
  rewrite forgiving_decode_padded by assumption. now rewrite Hdec.
Qed.

Lemma atob_encode (bs : list byte) :
  atob (base64_encode bs) = Ok (map Byte.to_N bs).
Proof. unfold atob. now rewrite forgiving_decode_encode. Qed.

(** A valid string is alphabet characters and padding, a multiple of four
    long. *)
Lemma valid_b64_shape (s : DOMString) :
  valid_b64 s = true ->
  exists body p,
    s = body ++ p
    /\ forallb is_b64_char body = true
    /\ is_padding p
    /\ N.of_nat (length (body ++ p)) mod 4 = 0.
Proof.
  induction s as [|a|a b|a b c|c0 c1 c2 c3 s IH] using list_ind4;
    try discriminate.
  - intros _. exists [], []. repeat split. now left.
  - cbn [valid_b64]. intros H.
    apply andb_prop in H as [H H2]. apply andb_prop in H as [H0 H1].
    destruct s as [|d s].
    + apply orb_prop in H2 as [H2 | H2]; [apply orb_prop in H2 as [H2 | H2]|];
        apply andb_prop in H2 as [H2 H3].
      * exists [c0; c1; c2; c3], []. cbn [forallb].
        rewrite H0, H1, H2, H3. repeat split. now left.
      * apply N.eqb_eq in H3 as ->.
        exists [c0; c1; c2], [pad]. cbn [forallb].
        rewrite H0, H1, H2. repeat split. right; now left.
      * apply N.eqb_eq in H2 as ->. apply N.eqb_eq in H3 as ->.
        exists [c0; c1], [pad; pad]. cbn [forallb].
        rewrite H0, H1. repeat split. right; now right.
    + apply andb_prop in H2 as [H2 Hs]. apply andb_prop in H2 as [H2 H3].
      destruct (IH Hs) as (body & p & E & Hb & Hp & Hlen).
      exists (c0 :: c1 :: c2 :: c3 :: body), p.
      split; [now rewrite E|].
      split; [cbn [forallb]; now rewrite H0, H1, H2, H3|].
      split; [assumption|].
      cbn [length app] in Hlen |- *. nlia.
Qed.

(** [atob] accepts every valid string. *)
Lemma valid_b64_decodes (s : DOMString) :
  valid_b64 s = true -> exists bs, forgiving_base64_decode s = Some bs.
Proof.
  intros (body & p & -> & Hb & Hp & Hlen)%valid_b64_shape.
  eexists. now apply forgiving_decode_padded.
Qed.

(** Four sextets and the three bytes they make. *)
Lemma bytes_of_group (v0 v1 v2 v3 : N) :
  v0 < 64 -> v1 < 64 -> v2 < 64 -> v3 < 64 ->
  let a := v0 * 4 + v1 / 16 in
  let b := v1 mod 16 * 16 + v2 / 4 in
  let c := v2 mod 4 * 64 + v3 in
  (a < 256 /\ b < 256 /\ c < 256)
  /\ a / 4 = v0 /\ a mod 4 * 16 + b / 16 = v1
  /\ b mod 16 * 4 + c / 64 = v2 /\ c mod 64 = v3.
Proof. intros H0 H1 H2 H3 a b c. subst a b c. repeat split; nlia. Qed.

Lemma one_byte_group (v0 v1 : N) :
  v1 < 64 -> v1 mod 16 = 0 -> (v0 * 4 + v1 / 16) mod 4 * 16 = v1.
Proof. intros H1 Z. nlia. Qed.

Lemma two_byte_group (v1 v2 : N) :
  v2 < 64 -> v2 mod 4 = 0 -> (v1 mod 16 * 16 + v2 / 4) mod 16 * 4 = v2.
Proof. intros H2 Z. nlia. Qed.

(** A canonical string is the encoding of some bytes. *)
Lemma canonical_b64_is_encoding (s : DOMString) :
  canonical_b64 s = true -> exists bs, base64_encode bs = s.
Proof.
  induction s as [|a|a b|a b c|c0 c1 c2 c3 s IH] using list_ind4;
    try discriminate.
  - intros _. now exists [].
  - cbn [canonical_b64]. intros H.
    apply andb_prop in H as [H H2]. apply andb_prop in H as [H0 H1].
    pose proof (sextet_bound c0) as B0. pose proof (sextet_bound c1) as B1.
    pose proof (sextet_bound c2) as B2. pose proof (sextet_bound c3) as B3.
    destruct (bytes_of_group (sextet c0) (sextet c1) (sextet c2) (sextet c3))
      as ((Ha & Hb & Hc) & E0 & E1 & E2 & E3); try assumption.
    cbv zeta in Ha, Hb, Hc, E0, E1, E2, E3.
    assert (G : forall rest,
      base64_encode
        (byte_of_N (sextet c0 * 4 + sextet c1 / 16)
         :: byte_of_N (sextet c1 mod 16 * 16 + sextet c2 / 4)
         :: byte_of_N (sextet c2 mod 4 * 64 + sextet c3) :: rest)
      = b64_char (sextet c0) :: b64_char (sextet c1) :: b64_char (sextet c2)
          :: b64_char (sextet c3) :: base64_encode rest).
    { intros rest. cbn [base64_encode]. cbv zeta.
      rewrite !to_N_byte_of_N by assumption. now rewrite E0, E1, E2, E3. }
    destruct s as [|d s].
    + apply orb_prop in H2 as [H2 | H2]; [apply orb_prop in H2 as [H2 | H2]|].
      * apply andb_prop in H2 as [H2 H3].
        eexists (_ :: _ :: _ :: []). rewrite G. cbn [base64_encode].
        now rewrite !b64_char_sextet.
      * apply andb_prop in H2 as [H2 Z]. apply andb_prop in H2 as [H2 H3].
        apply N.eqb_eq in H3 as ->. apply N.eqb_eq in Z.
        exists [byte_of_N (sextet c0 * 4 + sextet c1 / 16);
                byte_of_N (sextet c1 mod 16 * 16 + sextet c2 / 4)].
        cbn [base64_encode]. cbv zeta.
        rewrite !to_N_byte_of_N by assumption. rewrite E0, E1.
        rewrite two_byte_group by assumption.
        now rewrite !b64_char_sextet.
      * apply andb_prop in H2 as [H2 Z]. apply andb_prop in H2 as [H2 H3].
        apply N.eqb_eq in H2 as ->. apply N.eqb_eq in H3 as ->.
        apply N.eqb_eq in Z.
        exists [byte_of_N (sextet c0 * 4 + sextet c1 / 16)].
        cbn [base64_encode]. cbv zeta.
        rewrite !to_N_byte_of_N by assumption. rewrite E0.
        rewrite one_byte_group by assumption.
        now rewrite !b64_char_sextet.
    + apply andb_prop in H2 as [H2 Hs]. apply andb_prop in H2 as [H2 H3].
      destruct (IH Hs) as (bs & Ebs).
      eexists (_ :: _ :: _ :: bs). rewrite G, Ebs.
      now rewrite !b64_char_sextet.
Qed.

(** The encoder's output is canonical. *)
Lemma base64_encode_canonical (bs : list byte) :
  canonical_b64 (base64_encode bs) = true.
Proof.
  induction bs as [|x|x y|x y z bs IH] using list_ind3.
  - reflexivity.
  - pose proof (to_N_lt x) as Hx.
    destruct (sextet_ranges (Byte.to_N x) 0 0) as (H0 & _ & _ & _ & H1 & _);
      try lia.
    cbn [base64_encode canonical_b64]. cbv zeta.
    rewrite !is_b64_char_char, !sextet_char by assumption.
    rewrite N.eqb_refl. cbn [andb].
    replace (_ mod 16 =? 0) with true by (symmetry; apply N.eqb_eq; nlia).
    apply orb_true_r.
  - pose proof (to_N_lt x) as Hx. pose proof (to_N_lt y) as Hy.
    destruct (sextet_ranges (Byte.to_N x) (Byte.to_N y) 0)
      as (H0 & H1 & _ & _ & _ & H2); try lia.
    cbn [base64_encode canonical_b64]. cbv zeta.
    rewrite !is_b64_char_char, !sextet_char by assumption.
    rewrite N.eqb_refl. cbn [andb].
    replace (_ mod 4 =? 0) with true by (symmetry; apply N.eqb_eq; nlia).
    rewrite orb_true_r. reflexivity.
  - pose proof (to_N_lt x) as Hx. pose proof (to_N_lt y) as Hy.
    pose proof (to_N_lt z) as Hz.
    destruct (sextet_ranges (Byte.to_N x) (Byte.to_N y) (Byte.to_N z))
      as (H0 & H1 & H2 & H3 & _ & _); try assumption.
    cbn [base64_encode]. cbv zeta. cbn [canonical_b64].
    rewrite !is_b64_char_char by assumption. cbn [andb orb].
    destruct (base64_encode bs); [reflexivity|assumption].
Qed.

Lemma canonical_b64_valid (s : DOMString) :
  canonical_b64 s = true -> valid_b64 s = true.
Proof.
  induction s as [|a|a b|a b c|c0 c1 c2 c3 s IH] using list_ind4;
    try discriminate; [reflexivity|].
  cbn [canonical_b64 valid_b64].
  destruct (is_b64_char c0), (is_b64_char c1); cbn [andb]; try discriminate.
  destruct s as [|d s].
  - destruct (is_b64_char c2), (is_b64_char c3), (c2 =? pad), (c3 =? pad);
      cbn [andb orb]; try discriminate; reflexivity.
  - destruct (is_b64_char c2), (is_b64_char c3); cbn [andb];
      try discriminate. exact IH.
Qed.

(* ================================================================== *)
(** ** UTF-8 *)

Import UTF8.

Lemma encode_scalar_bytes (cp : N) :
  cp <= 0x10FFFF -> Forall (fun n => n < 256) (encode_scalar cp).
Proof.
  intros H. unfold encode_scalar.
  destruct (N.leb_spec cp 0x7F); [|destruct (N.leb_spec cp 0x7FF);
    [|destruct (N.leb_spec cp 0xFFFF)]];
    repeat constructor; nlia.
Qed.

Lemma lead_byte_1 (b : N) : b <= 0x7F -> lead_byte b = (initial, [b]).
Proof. intros H. unfold lead_byte. now break_tests. Qed.

Lemma lead_byte_2 (b : N) :
  0xC2 <= b <= 0xDF -> lead_byte b = (expecting (b - 0xC0) 1 0x80 0xBF, []).
Proof. intros H. unfold lead_byte. now break_tests. Qed.

Lemma lead_byte_3 (b : N) :
  0xE0 <= b <= 0xEF ->
  lead_byte b =
  (expecting (b - 0xE0) 2 (if b =? 0xE0 then 0xA0 else 0x80)
     (if b =? 0xED then 0x9F else 0xBF), []).
Proof.
  intros H. unfold lead_byte.
  destruct (N.leb_spec b 0x7F); [lia|].
  destruct (N.leb_spec 0xC2 b), (N.leb_spec b 0xDF); cbn [andb]; try lia.
  destruct (N.leb_spec 0xE0 b), (N.leb_spec b 0xEF); cbn [andb]; try lia.
  reflexivity.
Qed.

Lemma lead_byte_4 (b : N) :
  0xF0 <= b <= 0xF4 ->
  lead_byte b =
  (expecting (b - 0xF0) 3 (if b =? 0xF0 then 0x90 else 0x80)
     (if b =? 0xF4 then 0x8F else 0xBF), []).
Proof.
  intros H. unfold lead_byte.
  destruct (N.leb_spec b 0x7F); [lia|].
  destruct (N.leb_spec 0xC2 b), (N.leb_spec b 0xDF); cbn [andb]; try lia.
  destruct (N.leb_spec 0xE0 b), (N.leb_spec b 0xEF); cbn [andb]; try lia.
  destruct (N.leb_spec 0xF0 b), (N.leb_spec b 0xF4); cbn [andb]; try lia.
  reflexivity.
Qed.

Lemma decode_first (b : N) (rest : list N) :
  decode_bytes initial (b :: rest) =
  let '(st, out) := lead_byte b in out ++ decode_bytes st rest.
Proof. reflexivity. Qed.

(** A continuation byte within the boundaries. *)
Lemma decode_continue (cp seen needed lo hi b : N) (rest : list N) :
  needed <> 0 -> lo <= b <= hi ->
  decode_bytes
    {| code_point := cp; bytes_seen := seen; bytes_needed := needed;
       lower_boundary := lo; upper_boundary := hi |} (b :: rest) =
  if seen + 1 =? needed
  then (cp * 64 + b mod 64) :: decode_bytes initial rest
  else
    decode_bytes
      {| code_point := cp * 64 + b mod 64; bytes_seen := seen + 1;
         bytes_needed := needed;
         lower_boundary := 0x80; upper_boundary := 0xBF |} rest.
Proof.
  intros Hn Hb. cbn [decode_bytes bytes_needed lower_boundary upper_boundary
                     code_point bytes_seen].
  destruct (N.eqb_spec needed 0); [contradiction|].
  destruct (N.ltb_spec b lo), (N.ltb_spec hi b); cbn [orb]; try lia.
  reflexivity.
Qed.

(** The base-64 digits of a code point, from which its UTF-8 bytes are
    made. *)
Lemma utf8_digits (cp : N) :
  exists d0 d1 d2 d3,
    (d0 < 64 /\ d1 < 64 /\ d2 < 64)
    /\ cp = ((d3 * 64 + d2) * 64 + d1) * 64 + d0
    /\ cp mod 64 = d0 /\ (cp / 64) mod 64 = d1 /\ (cp / 4096) mod 64 = d2
    /\ cp / 64 = (d3 * 64 + d2) * 64 + d1
    /\ cp / 4096 = d3 * 64 + d2
    /\ cp / 262144 = d3.
Proof.
  exists (cp mod 64), ((cp / 64) mod 64), ((cp / 4096) mod 64), (cp / 262144).
  assert (E1 : cp / 4096 = cp / 64 / 64) by (now rewrite N.Div0.div_div).
  assert (E2 : cp / 262144 = cp / 4096 / 64) by (now rewrite N.Div0.div_div).
  pose proof (N.div_mod cp 64) as D0.
  pose proof (N.div_mod (cp / 64) 64) as D1.
  pose proof (N.div_mod (cp / 4096) 64) as D2.
  pose proof (N.mod_upper_bound cp 64) as B0.
  pose proof (N.mod_upper_bound (cp / 64) 64) as B1.
  pose proof (N.mod_upper_bound (cp / 4096) 64) as B2.
  rewrite <- E1 in D1. rewrite <- E2 in D2.
  generalize dependent (cp / 262144). generalize dependent (cp / 4096).
  generalize dependent (cp / 64). generalize dependent (cp mod 64).
  intros. repeat split; try lia.
Qed.

Lemma continuation_mod (d : N) : d < 64 -> (0x80 + d) mod 64 = d.
Proof. intros H. nlia. Qed.

(** Settles the decoder's count of the bytes seen. *)
Ltac count_seen :=
  match goal with
  | |- context [?a + 1 =? ?b] =>
      let v := eval vm_compute in (a + 1 =? b) in
      let w := eval vm_compute in (a + 1) in
      change (a + 1 =? b) with v; cbv iota; try change (a + 1) with w
  end.

(** Decoding the bytes of one scalar value gives the scalar value back. *)
Lemma decode_encode_scalar (cp : N) (rest : list N) :
  scalar_value cp ->
  decode_bytes initial (encode_scalar cp ++ rest)
  = cp :: decode_bytes initial rest.
Proof.
  intros Hcp.
  destruct (utf8_digits cp)
    as (d0 & d1 & d2 & d3 & (B0 & B1 & B2) & E & M0 & M1 & M2 & Q1 & Q2 & Q3).
  unfold encode_scalar. rewrite M0, M1, M2, Q1, Q2, Q3.
  destruct (N.leb_spec cp 0x7F); [|destruct (N.leb_spec cp 0x7FF);
    [|destruct (N.leb_spec cp 0xFFFF)]]; cbn [app].
  - rewrite decode_first, lead_byte_1 by assumption. reflexivity.
  - rewrite decode_first, lead_byte_2 by lia. cbn [app]. unfold expecting.
    rewrite decode_continue by lia.
    rewrite continuation_mod by assumption. count_seen.
    f_equal. lia.
  - rewrite decode_first, lead_byte_3 by lia. cbn [app]. unfold expecting.
    rewrite decode_continue.
    2: discriminate.
    2:{ destruct (N.eqb_spec (0xE0 + (d3 * 64 + d2)) 0xE0),
          (N.eqb_spec (0xE0 + (d3 * 64 + d2)) 0xED);
          unfold scalar_value in Hcp; lia. }
    count_seen.
    rewrite decode_continue by lia.
    rewrite !continuation_mod by assumption. count_seen.
    f_equal. lia.
  - rewrite decode_first, lead_byte_4 by (unfold scalar_value in Hcp; lia).
    cbn [app]. unfold expecting.
    rewrite decode_continue.
    2: discriminate.
    2:{ destruct (N.eqb_spec (0xF0 + d3) 0xF0),
          (N.eqb_spec (0xF0 + d3) 0xF4);
          unfold scalar_value in Hcp; lia. }
    count_seen.
    rewrite decode_continue by lia. count_seen.
    rewrite decode_continue by lia.
    rewrite !continuation_mod by assumption. count_seen.
    f_equal. lia.
Qed.

Lemma decode_encode_scalars (cps : list N) :
  Forall scalar_value cps ->
  decode_bytes initial (flat_map encode_scalar cps) = cps.
Proof.
  induction 1 as [|cp cps Hcp _ IH]; [reflexivity|].
  cbn [flat_map]. now rewrite decode_encode_scalar, IH.
Qed.

Lemma scalar_value_bound (cp : N) : scalar_value cp -> cp <= 0x10FFFF.
Proof. unfold scalar_value. lia. Qed.

Lemma encode_scalars_bytes (cps : list N) :
  Forall scalar_value cps ->
  Forall (fun n => n < 256) (flat_map encode_scalar cps).
Proof.
  induction 1 as [|cp cps Hcp _ IH]; [constructor|].
  cbn [flat_map]. apply Forall_app. split; [|assumption].
  now apply encode_scalar_bytes, scalar_value_bound.
Qed.

(** Strings one or two code units at a time, as the conversions to scalar
    values read them. *)
Lemma list_ind2 {A : Type} (P : list A -> Prop) :
  P [] -> (forall a, P [a]) ->
  (forall a b l, P l -> P (b :: l) -> P (a :: b :: l)) ->
  forall l, P l.
Proof.
  intros H0 H1 H2 l.
  enough (H : P l /\ forall a, P (a :: l)) by apply H.
  induction l as [|b l [IHl IHb]]; split; auto.
Qed.

Lemma surrogate_pair_value (c d : N) :
  is_lead_surrogate c = true -> is_trail_surrogate d = true ->
  let cp := 0x10000 + (c - 0xD800) * 0x400 + (d - 0xDC00) in
  (0xFFFF < cp /\ cp <= 0x10FFFF) /\ utf16_units cp = [c; d].
Proof.
  unfold is_lead_surrogate, is_trail_surrogate.
  intros [H1 H2]%andb_prop [H3 H4]%andb_prop.
  apply N.leb_le in H1, H2, H3, H4.
  cbv zeta. set (cp := 0x10000 + (c - 0xD800) * 0x400 + (d - 0xDC00)).
  assert (Hcp : 0xFFFF < cp /\ cp <= 0x10FFFF) by (subst cp; lia).
  split; [assumption|]. unfold utf16_units.
  destruct (N.ltb_spec cp 0x10000); [lia|].
  replace (cp - 0x10000) with ((c - 0xD800) * 0x400 + (d - 0xDC00))
    by (subst cp; lia).
  f_equal; [|f_equal]; nlia.
Qed.

(** Every code point of a string of 16-bit code units is a scalar value. *)
Lemma to_scalar_values_scalar (s : DOMString) :
  Forall (fun c => c < 0x10000) s -> Forall scalar_value (to_scalar_values s).
Proof.
  assert (R : scalar_value replacement)
    by (unfold scalar_value, replacement; lia).
  induction s as [|c|c d s IHs IHd] using list_ind2; intros H.
  - constructor.
  - apply Forall_inv in H. cbn [to_scalar_values].
    destruct (is_lead_surrogate c) eqn:L; [now constructor|].
    destruct (is_trail_surrogate c) eqn:T; (constructor; [|constructor]);
      [assumption|].
    unfold is_lead_surrogate, is_trail_surrogate in L, T.
    unfold scalar_value. revert L T.
    break_tests; intros; try discriminate; lia.
  - pose proof (Forall_inv H) as Hc. cbv beta in Hc.
    apply Forall_inv_tail in H. specialize (IHd H).
    specialize (IHs (Forall_inv_tail H)).
    cbn [to_scalar_values] in IHd |- *.
    destruct (is_lead_surrogate c) eqn:L.
    + destruct (is_trail_surrogate d) eqn:T.
      * constructor; [|assumption].
        destruct (surrogate_pair_value c d L T) as [B _].
        unfold scalar_value. lia.
      * constructor; assumption.
    + destruct (is_trail_surrogate c) eqn:T; constructor; try assumption.
      unfold is_lead_surrogate, is_trail_surrogate in L, T.
      unfold scalar_value. revert L T.
    break_tests; intros; try discriminate; lia.
Qed.

Lemma well_formed_units (s : DOMString) :
  well_formed s = true -> Forall (fun c => c < 0x10000) s.
Proof.
  induction s as [|c|c d s IHs IHd] using list_ind2.
  - constructor.
  - cbn [well_formed]. destruct (is_lead_surrogate c); [discriminate|].
    intros [[_ H]%andb_prop _]%andb_prop. apply N.ltb_lt in H.
    now repeat constructor.
  - cbn [well_formed] in IHd |- *. destruct (is_lead_surrogate c) eqn:L.
    + intros [T W]%andb_prop.
      unfold is_lead_surrogate in L. unfold is_trail_surrogate in T.
      apply andb_prop in L as [_ L]. apply andb_prop in T as [_ T].
      apply N.leb_le in L, T.
      repeat constructor; try lia. now apply IHs.
    + intros [[_ H]%andb_prop W]%andb_prop. apply N.ltb_lt in H.
      constructor; [assumption|]. now apply IHd.
Qed.

(** The code units of a well-formed string are those of its code
    points. *)
Lemma utf16_of_scalar_values (s : DOMString) :
  well_formed s = true -> flat_map utf16_units (to_scalar_values s) = s.
Proof.
  assert (U : forall c, (c <? 0x10000) = true -> utf16_units c = [c]).
  { intros c H. unfold utf16_units. now rewrite H. }
  induction s as [|c|c d s IHs IHd] using list_ind2.
  - reflexivity.
  - cbn [well_formed to_scalar_values].
    destruct (is_lead_surrogate c); [discriminate|].
    destruct (is_trail_surrogate c); [discriminate|].
    cbn [negb andb]. rewrite andb_true_r. intros H.
    cbn [flat_map]. now rewrite U.
  - cbn [well_formed to_scalar_values] in IHd |- *.
    destruct (is_lead_surrogate c) eqn:L.
    + intros [T W]%andb_prop. rewrite T. cbn [flat_map].
      destruct (surrogate_pair_value c d L T) as [_ ->].
      now rewrite IHs.
    + destruct (is_trail_surrogate c); [discriminate|]. cbn [negb andb].
      intros [H W]%andb_prop. cbn [flat_map]. now rewrite U, IHd.
Qed.

(** A string that does not start with U+FEFF has no code point for
    [drop_BOM] to drop. *)
Lemma drop_BOM_keeps (s : DOMString) :
  hd 0 s <> BOM -> drop_BOM (to_scalar_values s) = to_scalar_values s.
Proof.
  assert (K : forall c l, c <> BOM -> drop_BOM (c :: l) = c :: l).
  { intros c l H. unfold drop_BOM. now destruct (N.eqb_spec c BOM). }
  destruct s as [|c [|d s]]; cbn [hd to_scalar_values]; intros H;
    [reflexivity| |].
  - destruct (is_lead_surrogate c); [now apply K|].
    destruct (is_trail_surrogate c); now apply K.
  - destruct (is_lead_surrogate c) eqn:L.
    + destruct (is_trail_surrogate d) eqn:T; [|now apply K].
      apply K. destruct (surrogate_pair_value c d L T) as [B _].
      unfold BOM. lia.
    + destruct (is_trail_surrogate c); now apply K.
Qed.

(** What decoding an encoded string gives: its code points, a first
    U+FEFF dropped, each surrogate outside a pair replaced. *)
Lemma TextDecoder_TextEncoder_normalises (s : DOMString) :
  Forall (fun c => c < 0x10000) s ->
  TextDecoder_decode (TextEncoder_encode s)
  = flat_map utf16_units (drop_BOM (to_scalar_values s)).
Proof.
  intros H. apply to_scalar_values_scalar in H.
  unfold TextDecoder_decode, TextEncoder_encode.
  rewrite map_to_N_byte_of_N by now apply encode_scalars_bytes.
  now rewrite decode_encode_scalars.
Qed.

(** Decoding gives a well-formed string back, unless it starts with
    U+FEFF. *)
Lemma TextDecoder_TextEncoder (s : DOMString) :
  well_formed s = true -> hd 0 s <> BOM ->
  TextDecoder_decode (TextEncoder_encode s) = s.
Proof.
  intros W B.
  rewrite TextDecoder_TextEncoder_normalises by now apply well_formed_units.
  rewrite drop_BOM_keeps by assumption.
  now apply utf16_of_scalar_values.
Qed.

(* ================================================================== *)
(** ** The encoding helpers of the facade *)

Section Spread.

Context {JS : JavaScriptEngine}.

Lemma fromCharCode_bytes (bs : list byte) :
  N.of_nat (length bs) <= max_arguments ->
  fromCharCode (map Byte.to_N bs) = Ok (map Byte.to_N bs).
Proof.
  intros H. unfold fromCharCode. rewrite length_map.
  apply N.leb_le in H. rewrite H. f_equal.
  rewrite map_map. apply map_ext.
  intros b. apply N.mod_small. pose proof (to_N_lt b). lia.
Qed.

Lemma btoa_bytes (bs : list byte) :
  btoa (map Byte.to_N bs) = Ok (base64_encode bs).
Proof.
  unfold btoa. replace (forallb _ _) with true.
  - now rewrite map_byte_of_N_to_N.
  - symmetry. apply forallb_forall. intros c (b & <- & _)%in_map_iff.
    apply N.leb_le, Byte.to_N_bounded.
Qed.

(** [u8a2b64] is the base-64 encoder on the arrays the engine can spread
    into one call. *)
Lemma u8a2b64_encode (u8a : Uint8Array) :
  N.of_nat (length u8a) <= max_arguments ->
  u8a2b64 u8a = Ok (base64_encode u8a).
Proof.
  intros H. unfold u8a2b64. rewrite fromCharCode_bytes by assumption.
  cbn [bind]. apply btoa_bytes.
Qed.

(** On a longer array it throws a [RangeError]. *)
Lemma u8a2b64_too_long (u8a : Uint8Array) :
  max_arguments < N.of_nat (length u8a) -> u8a2b64 u8a = Err RangeError.
Proof.
  intros H. unfold u8a2b64, fromCharCode. rewrite length_map.
  apply N.leb_gt in H. now rewrite H.
Qed.


(** The 64 bytes of a salt or an IV are always encoded. *)
Lemma u8a2b64_64 (u8a : Uint8Array) :
  length u8a = 64%nat -> u8a2b64 u8a = Ok (base64_encode u8a).
Proof.
  intros H. apply u8a2b64_encode. rewrite H.
  exact max_arguments_floor.
Qed.

End Spread.

(** A string of byte values holds no surrogate: the iterator yields its
    code units one by one. *)
Lemma string_iterator_bytes (bs : list byte) :
  string_iterator (map Byte.to_N bs) = map (fun b => [Byte.to_N b]) bs.
Proof.
  induction bs as [|b bs IH]; [reflexivity|].
  cbn [map string_iterator] in IH |- *.
  destruct bs as [|b' bs]; [reflexivity|].
  cbn [map] in IH |- *.
  replace (is_lead_surrogate (Byte.to_N b)) with false.
  - cbn [andb]. now rewrite IH.
  - symmetry. unfold is_lead_surrogate. pose proof (to_N_lt b).
    destruct (N.leb_spec 0xD800 (Byte.to_N b)); [lia|reflexivity].
Qed.

(** [b642u8a] is forgiving-base64 decode, its failure thrown as an
    [InvalidCharacterError]. *)
Lemma b642u8a_decode (b64 : DOMString) :
  b642u8a b64 =
  match forgiving_base64_decode b64 with
  | Some bytes => Ok bytes
  | None => Err InvalidCharacterError
  end.
Proof.
  unfold b642u8a, atob.
  destruct (forgiving_base64_decode b64) as [bytes|]; [|reflexivity].
  cbn [bind]. rewrite string_iterator_bytes, map_map. f_equal.
  rewrite <- (map_id bytes) at 2. apply map_ext.
  intros b. cbn [charCodeAt0 hd]. apply byte_of_N_to_N.
Qed.

Lemma b642u8a_error (b64 : DOMString) (e : DOMException) :
  b642u8a b64 = Err e -> e = InvalidCharacterError.
Proof.
  rewrite b642u8a_decode. destruct (forgiving_base64_decode b64);
    congruence.
Qed.

Lemma b642u8a_encode (u8a : Uint8Array) :
  b642u8a (base64_encode u8a) = Ok u8a.
Proof. now rewrite b642u8a_decode, forgiving_decode_encode. Qed.

(** What forgiving-base64 decode rejects. *)
Lemma forgiving_decode_fails_iff (data : DOMString) :
  forgiving_base64_decode data = None <->
  code_point_length (forgiving_strip data) mod 4 = 1
  \/ forallb is_b64_char (forgiving_strip data) = false.
Proof.
  unfold forgiving_base64_decode.
  destruct (N.eqb_spec (code_point_length (forgiving_strip data) mod 4) 1)
    as [H | H].
  - split; [now left|reflexivity].
  - destruct (forallb is_b64_char (forgiving_strip data)); cbn [negb].
    + split; [discriminate|]. intros [H' | H']; [contradiction|discriminate].
    + split; [now right|reflexivity].
Qed.

(** A string [atob] rejects is not standard base 64 either. *)
Lemma rejected_is_not_valid (s : DOMString) :
  forgiving_base64_decode s = None -> valid_b64 s = false.
Proof.
  intros H. destruct (valid_b64 s) eqn:V; [|reflexivity].
  apply valid_b64_decodes in V as [bs V]. congruence.
Qed.

(** C6 (as amended). The encoding helpers round-trip on what [u8a2b64]
    can encode: for every byte sequence within the engine's bound on
    arguments, decoding its encoding gives the bytes back; and every
    canonical standard base-64 string (padded, the unused bits of the last
    group zero) decodes, and encoding its decoding gives the string back
    when the decoded bytes are within that bound. *)
Theorem base64_roundtrip {JS : JavaScriptEngine} :
  (forall b : Uint8Array,
      N.of_nat (length b) <= max_arguments ->
      (s <- u8a2b64 b ;; b642u8a s) = Ok b)
  /\ (forall s : DOMString,
         canonical_b64 s = true ->
         exists b,
           b642u8a s = Ok b
           /\ (N.of_nat (length b) <= max_arguments ->
               (b' <- b642u8a s ;; u8a2b64 b') = Ok s)).
Proof.
  split.
  - intros b H. rewrite u8a2b64_encode by assumption. cbn [bind].
    apply b642u8a_encode.
  - intros s [bs <-]%canonical_b64_is_encoding. exists bs.
    split; [apply b642u8a_encode|]. intros H.
    rewrite b642u8a_encode. cbn [bind]. now apply u8a2b64_encode.
Qed.

(* ================================================================== *)
(** ** The random source *)

Lemma window_length (rs : RandomSource) (n : nat) :
  length (window rs n) = n.
Proof. unfold window. now rewrite length_map, length_seq. Qed.

(** Reading a list through [nth] at consecutive positions. *)
Lemma map_nth_seq (l : list byte) (from n : nat) :
  map (fun i => nth i l x00) (seq from n) = firstn n (skipn from l)
  \/ (length l < from + n)%nat.
Proof.
  revert from l. induction n as [|n IH]; intros from l; [now left|].
  destruct (Nat.lt_ge_cases (length l) (from + S n)) as [H | H];
    [now right|left].
  cbn [seq map].
  destruct (IH (S from) l) as [-> | H']; [|lia].
  assert (Hs : skipn from l = nth from l x00 :: skipn (S from) l).
  { clear IH. revert l H. induction from as [|from IHf]; intros [|x l] H;
      cbn [length] in H; try lia; [reflexivity|].
    cbn [skipn nth]. apply IHf. lia. }
  now rewrite Hs.
Qed.

(** The two windows are independent: any two sequences of 64 bytes are the
    two consecutive windows of some random source. *)
Lemma windows_are_independent (w1 w2 : list byte) :
  length w1 = 64%nat -> length w2 = 64%nat ->
  exists rs, window rs 64 = w1 /\ window (advance rs 64) 64 = w2.
Proof.
  intros H1 H2.
  exists {| entropy := fun i => nth i (w1 ++ w2) x00; consumed := 0 |}.
  unfold window, advance. cbn [entropy consumed]. split.
  - destruct (map_nth_seq (w1 ++ w2) 0 64) as [-> | H];
      [|rewrite length_app in H; lia].
    cbn [skipn]. rewrite firstn_app, H1, Nat.sub_diag, firstn_O.
    rewrite app_nil_r, <- H1. apply firstn_all.
  - change (0 + 64)%nat with 64%nat.
    destruct (map_nth_seq (w1 ++ w2) 64 64) as [-> | H];
      [|rewrite length_app in H; lia].
    rewrite skipn_app, H1, Nat.sub_diag, skipn_O.
    rewrite <- H1 at 2. rewrite skipn_all, <- H2. cbn [app].
    apply firstn_all.
Qed.

(* ================================================================== *)
(** ** The operations of the engine *)

Section EngineFacts.

Context {E : SubtleCrypto}.

Lemma GCTR_from_involutive (from : nat) (key iv data : list byte) :
  GCTR_from from key iv (GCTR_from from key iv data) = data.
Proof.
  revert from. induction data as [|x data IH]; intros from; [reflexivity|].
  cbn [GCTR_from]. now rewrite byte_xor_involutive, IH.
Qed.

Lemma GCTR_involutive (key iv data : list byte) :
  GCTR key iv (GCTR key iv data) = data.
Proof. apply GCTR_from_involutive. Qed.

Lemma GCTR_length (key iv data : list byte) :
  length (GCTR key iv data) = length data.
Proof.
  unfold GCTR. generalize 0%nat as from.
  induction data as [|x data IH]; intros from; [reflexivity|].
  cbn [GCTR_from length]. now rewrite IH.
Qed.

Lemma split_tag (C T : list byte) :
  length T = tag_bytes ->
  firstn (length (C ++ T) - tag_bytes) (C ++ T) = C
  /\ skipn (length (C ++ T) - tag_bytes) (C ++ T) = T.
Proof.
  intros HT. rewrite length_app, HT.
  replace (length C + tag_bytes - tag_bytes)%nat with (length C) by lia.
  split.
  - rewrite firstn_app, Nat.sub_diag, firstn_all. cbn [firstn].
    apply app_nil_r.
  - rewrite skipn_app, Nat.sub_diag, skipn_all. reflexivity.
Qed.

Context {HE : Conforming E}.

Lemma importKey_digest (data : list byte) :
  importKey_AES_GCM (SHA_256 data) = Ok (SHA_256 data).
Proof.
  unfold importKey_AES_GCM. now rewrite SHA_256_length.
Qed.

(** The tag [encrypt] appends verifies. *)
Lemma tag_verifies_encrypt (iv key plaintext : list byte) :
  let C := GCTR key iv plaintext in
  tag_verifies iv key (C ++ AES_GCM_tag key iv C) = true.
Proof.
  intros C. unfold tag_verifies.
  destruct (split_tag C (AES_GCM_tag key iv C)) as [-> ->];
    [apply AES_GCM_tag_length|].
  rewrite bytes_eqb_refl, andb_true_r. apply Nat.leb_le.
  rewrite length_app, AES_GCM_tag_length. unfold tag_bytes. lia.
Qed.

(** Authenticated decryption undoes authenticated encryption under the
    same key and IV. *)
Lemma decrypt_encrypt_AES_GCM (iv key plaintext data : list byte) :
  encrypt_AES_GCM iv key plaintext = Ok data ->
  decrypt_AES_GCM iv key data = Ok plaintext.
Proof.
  unfold encrypt_AES_GCM. intros [= <-]. unfold decrypt_AES_GCM.
  rewrite tag_verifies_encrypt.
  destruct (split_tag (GCTR key iv plaintext)
              (AES_GCM_tag key iv (GCTR key iv plaintext))) as [-> _];
    [apply AES_GCM_tag_length|].
  now rewrite GCTR_involutive.
Qed.

End EngineFacts.

(* ================================================================== *)
(** ** The facade *)

Lemma Ok_injective {A : Type} (x y : A) : Ok x = Ok y -> x = y.
Proof. now intros [= ->]. Qed.

Section Facade.

Context {JS : JavaScriptEngine} {E : SubtleCrypto}.

(** [u8a2b64] fails with a [RangeError] or not at all. *)
Lemma u8a2b64_error (u8a : Uint8Array) (e : DOMException) :
  u8a2b64 u8a = Err e -> e = RangeError.
Proof.
  destruct (N.le_gt_cases (N.of_nat (length u8a)) max_arguments) as [L | L].
  - rewrite u8a2b64_encode by assumption. discriminate.
  - rewrite u8a2b64_too_long by assumption. now intros [= <-].
Qed.

(** [hash] as a function of the text and of the decoded salt. *)
Lemma hash_of_decoded_salt (text salt : DOMString) :
  hash text salt =
  (salt_bytes <- b642u8a salt ;;
   u8a2b64
     (PBKDF2_HMAC_SHA512 (TextEncoder_encode text) salt_bytes 1000 64)).
Proof.
  unfold hash, importKey_PBKDF2. cbn [bind].
  destruct (b642u8a salt) as [salt_bytes|e]; [|reflexivity].
  cbn [bind]. unfold deriveBits_PBKDF2.
  change (negb (512 mod 8 =? 0)) with false.
  change (1000 =? 0) with false. change (512 / 8) with 64.
  reflexivity.
Qed.

(** [salt] encodes the next 64 bytes of the random source. *)
Lemma salt_unfold (rs : RandomSource) :
  salt rs = (Ok (base64_encode (window rs 64)), advance rs 64).
Proof.
  unfold salt, getRandomValues.
  change (65536 <? N.of_nat 64) with false. cbv iota.
  cbn [bind]. now rewrite u8a2b64_64 by apply window_length.
Qed.

(** C9. [hash] depends on the salt only through its decoded bytes: two
    salt strings that decode alike give the same hash of every text. *)
Theorem hash_depends_on_salt_bytes (text salt1 salt2 : DOMString) :
  b642u8a salt1 = b642u8a salt2 -> hash text salt1 = hash text salt2.
Proof.
  intros H. rewrite !hash_of_decoded_salt. now rewrite H.
Qed.

(** C10. Every string [salt] returns is a valid, canonical standard
    base-64 string that decodes to exactly 64 bytes, the next 64 of the
    random source; so [hash] of any text with it does not fail with an
    [InvalidCharacterError] (InvalidEncoding), and on an engine whose
    PBKDF2 derives the 64 bytes asked for it returns a hash. *)
Theorem salt_is_decodable (rs : RandomSource) :
  exists s,
    fst (salt rs) = Ok s
    /\ valid_b64 s = true
    /\ canonical_b64 s = true
    /\ b642u8a s = Ok (window rs 64)
    /\ length (window rs 64) = 64%nat
    /\ forall text,
         hash text s <> Err InvalidCharacterError
         /\ (Conforming E ->
             hash text s =
             Ok (base64_encode
                   (PBKDF2_HMAC_SHA512 (TextEncoder_encode text)
                      (window rs 64) 1000 64))).
Proof.
  exists (base64_encode (window rs 64)).
  rewrite salt_unfold. split; [reflexivity|].
  split; [apply canonical_b64_valid, base64_encode_canonical|].
  split; [apply base64_encode_canonical|].
  split; [apply b642u8a_encode|].
  split; [apply window_length|].
  intros text. rewrite hash_of_decoded_salt, b642u8a_encode. cbn [bind].
  split.
  - intros H. apply u8a2b64_error in H. discriminate.
  - intros HE. apply u8a2b64_64. now rewrite PBKDF2_length.
Qed.

(** C5 (as amended). [hash] does not guard against the empty text: for
    every salt, [hash [] salt] imports the empty byte sequence as key
    material and never fails with InvalidKeyMaterial; on an engine whose
    PBKDF2 derives the 64 bytes asked for it returns, when the salt
    decodes, the base-64 encoding of the 64 bytes derived from the empty
    password, and its only failure is the salt's [InvalidCharacterError]
    (InvalidEncoding). *)
Theorem hash_of_empty_text (salt : DOMString) :
  (forall e, hash [] salt = Err e -> kind_of e <> InvalidKeyMaterial)
  /\ (Conforming E ->
      hash [] salt =
      match b642u8a salt with
      | Ok salt_bytes =>
          Ok (base64_encode (PBKDF2_HMAC_SHA512 [] salt_bytes 1000 64))
      | Err _ => Err InvalidCharacterError
      end
      /\ forall e, hash [] salt = Err e -> kind_of e = InvalidEncoding).
Proof.
  rewrite hash_of_decoded_salt.
  change (TextEncoder_encode []) with (@nil byte).
  destruct (b642u8a salt) as [sb|e'] eqn:B; cbn [bind].
  - split.
    + intros e H. apply u8a2b64_error in H as ->. discriminate.
    + intros HE. rewrite u8a2b64_64 by now rewrite PBKDF2_length.
      split; [reflexivity|discriminate].
  - apply b642u8a_error in B as ->. split.
    + intros e [= <-]. discriminate.
    + intros _. split; [reflexivity|]. now intros e [= <-].
Qed.

Context {HE : Conforming E}.

(** On an engine whose PBKDF2 derives the bytes asked for, the 64 bytes
    are always encoded. *)
Lemma hash_unfold (text salt : DOMString) :
  hash text salt =
  (salt_bytes <- b642u8a salt ;;
   Ok (base64_encode
         (PBKDF2_HMAC_SHA512 (TextEncoder_encode text) salt_bytes 1000 64))).
Proof.
  rewrite hash_of_decoded_salt.
  destruct (b642u8a salt) as [salt_bytes|e]; [|reflexivity].
  cbn [bind]. apply u8a2b64_64. now rewrite PBKDF2_length.
Qed.

(** [hash] fails only when the salt does not decode, and then with an
    [InvalidCharacterError]. *)
Lemma hash_error (text salt : DOMString) (e : DOMException) :
  hash text salt = Err e -> e = InvalidCharacterError.
Proof.
  rewrite hash_unfold. destruct (b642u8a salt) as [sb|e'] eqn:B.
  - discriminate.
  - cbn [bind]. intros [= <-]. now apply b642u8a_error in B.
Qed.

(** [encrypt] in terms of the engine's cores: everything but the encoding
    of the ciphertext always succeeds. *)
Lemma encrypt_unfold (plaintext secret : DOMString) (rs : RandomSource) :
  let algorithm_iv := window rs 64 in
  let key := SHA_256 (TextEncoder_encode secret) in
  let C := GCTR key algorithm_iv (TextEncoder_encode plaintext) in
  encrypt plaintext secret rs =
  (ciphertext64 <- u8a2b64 (C ++ AES_GCM_tag key algorithm_iv C) ;;
   Ok {| iv := base64_encode algorithm_iv; ciphertext := ciphertext64 |},
   advance rs 64).
Proof.
  intros algorithm_iv key C. unfold encrypt, getRandomValues.
  change (65536 <? N.of_nat 64) with false. cbv iota.
  unfold digest_SHA_256. cbn [bind]. rewrite importKey_digest.
  unfold encrypt_AES_GCM. cbn [bind].
  now rewrite (u8a2b64_64 (window rs 64)) by apply window_length.
Qed.

(** The bytes [encrypt] has to encode: those of the plaintext, and the
    tag. *)
Lemma encrypted_length (key iv data : list byte) :
  length (GCTR key iv data ++ AES_GCM_tag key iv (GCTR key iv data))
  = (length data + 16)%nat.
Proof. now rewrite length_app, GCTR_length, AES_GCM_tag_length. Qed.

(** [encrypt] on a plaintext whose ciphertext the engine can spread into
    one call. *)
Lemma encrypt_within (plaintext secret : DOMString) (rs : RandomSource) :
  N.of_nat (length (TextEncoder_encode plaintext) + 16) <= max_arguments ->
  let algorithm_iv := window rs 64 in
  let key := SHA_256 (TextEncoder_encode secret) in
  let C := GCTR key algorithm_iv (TextEncoder_encode plaintext) in
  encrypt plaintext secret rs =
  (Ok {| iv := base64_encode algorithm_iv;
         ciphertext := base64_encode (C ++ AES_GCM_tag key algorithm_iv C) |},
   advance rs 64).
Proof.
  intros H algorithm_iv key C. rewrite encrypt_unfold.
  fold algorithm_iv key C.
  rewrite u8a2b64_encode; [reflexivity|].
  subst C. now rewrite encrypted_length.
Qed.

(** On a longer plaintext [encrypt] fails with the [RangeError] of
    [u8a2b64]. *)
Lemma encrypt_too_long (plaintext secret : DOMString) (rs : RandomSource) :
  max_arguments < N.of_nat (length (TextEncoder_encode plaintext) + 16) ->
  fst (encrypt plaintext secret rs) = Err RangeError.
Proof.
  intros H. rewrite encrypt_unfold. cbn [fst].
  rewrite u8a2b64_too_long; [reflexivity|].
  now rewrite encrypted_length.
Qed.

(** What [encrypt] returns, when it returns. *)
Lemma encrypt_returns
    (plaintext secret : DOMString) (rs : RandomSource) (e : Encryption) :
  fst (encrypt plaintext secret rs) = Ok e ->
  N.of_nat (length (TextEncoder_encode plaintext) + 16) <= max_arguments
  /\ encrypt plaintext secret rs = (Ok e, advance rs 64).
Proof.
  intros H.
  destruct (N.le_gt_cases
              (N.of_nat (length (TextEncoder_encode plaintext) + 16))
              max_arguments) as [L | L].
  - split; [assumption|].
    rewrite encrypt_within in H |- * by assumption. cbn [fst] in H.
    now rewrite H.
  - rewrite encrypt_too_long in H by assumption. discriminate.
Qed.

(** [decrypt] in terms of the engine's cores. *)
Lemma decrypt_unfold (ciphertext iv secret : DOMString) :
  decrypt ciphertext iv secret =
  (algorithm_iv <- b642u8a iv ;;
   data <- b642u8a ciphertext ;;
   decryption <-
     decrypt_AES_GCM algorithm_iv (SHA_256 (TextEncoder_encode secret)) data ;;
   Ok (TextDecoder_decode decryption)).
Proof.
  unfold decrypt, digest_SHA_256.
  destruct (b642u8a iv) as [algorithm_iv|e]; [|reflexivity].
  cbn [bind]. now rewrite importKey_digest.
Qed.

(** [decrypt] returns a plaintext only for data whose tag verifies. *)
Lemma decrypt_returns_only_verified
    (ciphertext iv secret plaintext : DOMString) :
  decrypt ciphertext iv secret = Ok plaintext ->
  exists algorithm_iv data,
    b642u8a iv = Ok algorithm_iv
    /\ b642u8a ciphertext = Ok data
    /\ tag_verifies algorithm_iv (SHA_256 (TextEncoder_encode secret)) data
       = true.
Proof.
  rewrite decrypt_unfold.
  destruct (b642u8a iv) as [algorithm_iv|]; [|discriminate].
  destruct (b642u8a ciphertext) as [data|]; [|discriminate].
  cbn [bind]. unfold decrypt_AES_GCM.
  destruct (tag_verifies _ _ data) eqn:V; [|discriminate].
  intros _. now exists algorithm_iv, data.
Qed.

(** What [decrypt] returns for what [encrypt] returned: the plaintext
    after an encoding to UTF-8 and back. *)
Lemma decrypt_encrypt
    (plaintext secret : DOMString) (rs : RandomSource) (e : Encryption) :
  fst (encrypt plaintext secret rs) = Ok e ->
  decrypt (ciphertext e) (iv e) secret
  = Ok (TextDecoder_decode (TextEncoder_encode plaintext)).
Proof.
  intros H. apply encrypt_returns in H as [L H].
  rewrite encrypt_within in H by assumption.
  apply (f_equal fst) in H. cbn [fst] in H.
  apply Ok_injective in H. subst e.
  cbn [iv ciphertext]. rewrite decrypt_unfold, !b642u8a_encode.
  cbn [bind].
  erewrite decrypt_encrypt_AES_GCM by reflexivity. reflexivity.
Qed.

(** C1 (as amended). For every plaintext that is well-formed UTF-16 (no
    surrogate outside a pair) and does not begin with U+FEFF, and every
    secret: if [encrypt] returns a pair [{iv, ciphertext}], then [decrypt]
    of that ciphertext and iv under the same secret returns the plaintext;
    and [encrypt] does return when the ciphertext is within the engine's
    bound on arguments. *)
Theorem decrypt_encrypt_roundtrip
    (plaintext secret : DOMString) (rs : RandomSource) :
  well_formed plaintext = true ->
  hd 0 plaintext <> BOM ->
  (forall e,
      fst (encrypt plaintext secret rs) = Ok e ->
      decrypt (ciphertext e) (iv e) secret = Ok plaintext)
  /\ (N.of_nat (length (TextEncoder_encode plaintext) + 16)
      <= max_arguments ->
      exists e, fst (encrypt plaintext secret rs) = Ok e).
Proof.
  intros W B. split.
  - intros e He. rewrite (decrypt_encrypt _ _ _ _ He). f_equal.
    now apply TextDecoder_TextEncoder.
  - intros L. rewrite encrypt_within by assumption. now eexists.
Qed.

(** C3. For every text and every valid base-64 salt, the salt decodes, to
    the bytes forgiving-base64 decoding gives (those the salt is the
    encoding of, when it is canonical), and [hash text salt] is the
    base-64 encoding of the 64 bytes PBKDF2 with HMAC-SHA-512 derives from
    the encoded text, with those salt bytes and 1000 iterations. [hash]
    reads nothing but its two arguments, so equal arguments give equal
    results. *)
Theorem hash_is_PBKDF2 (text salt : DOMString) :
  valid_b64 salt = true ->
  exists salt_bytes,
    forgiving_base64_decode salt = Some salt_bytes
    /\ (canonical_b64 salt = true -> base64_encode salt_bytes = salt)
    /\ b642u8a salt = Ok salt_bytes
    /\ hash text salt =
       Ok (base64_encode
             (PBKDF2_HMAC_SHA512 (TextEncoder_encode text) salt_bytes
                1000 64))
    /\ length
         (PBKDF2_HMAC_SHA512 (TextEncoder_encode text) salt_bytes 1000 64)
       = 64%nat.
Proof.
  intros V. destruct (valid_b64_decodes salt V) as [salt_bytes D].
  assert (B : b642u8a salt = Ok salt_bytes)
    by now rewrite b642u8a_decode, D.
  exists salt_bytes. split; [assumption|]. split; [|split; [assumption|]].
  - intros [bs <-]%canonical_b64_is_encoding.
    rewrite forgiving_decode_encode in D. now injection D as <-.
  - split; [now rewrite hash_unfold, B|now rewrite PBKDF2_length].
Qed.

(** X20. For every plaintext whose ciphertext is within the engine's bound
    on arguments, and every secret, [encrypt] takes the next 64 bytes of
    the random source as IV, derives the key as the SHA-256 digest of the
    encoded secret (32 bytes), encrypts the encoded plaintext under
    AES-GCM with that key and IV, and returns [{iv, ciphertext}], both
    base-64 strings, the iv decoding to exactly those 64 bytes. *)
Theorem encrypt_computes (plaintext secret : DOMString) (rs : RandomSource) :
  N.of_nat (length (TextEncoder_encode plaintext) + 16) <= max_arguments ->
  let algorithm_iv := window rs 64 in
  let key := SHA_256 (TextEncoder_encode secret) in
  let C := GCTR key algorithm_iv (TextEncoder_encode plaintext) in
  let e := {| iv := base64_encode algorithm_iv;
              ciphertext :=
                base64_encode (C ++ AES_GCM_tag key algorithm_iv C) |} in
  encrypt plaintext secret rs = (Ok e, advance rs 64)
  /\ encrypt_AES_GCM algorithm_iv key (TextEncoder_encode plaintext)
     = Ok (C ++ AES_GCM_tag key algorithm_iv C)
  /\ length key = 32%nat
  /\ length algorithm_iv = 64%nat
  /\ b642u8a (iv e) = Ok algorithm_iv
  /\ canonical_b64 (iv e) = true
  /\ canonical_b64 (ciphertext e) = true.
Proof.
  intros L algorithm_iv key C e.
  split; [now apply encrypt_within|]. split; [reflexivity|].
  split; [apply SHA_256_length|]. split; [apply window_length|].
  cbn [iv ciphertext e].
  split; [apply b642u8a_encode|].
  split; apply base64_encode_canonical.
Qed.

(** C7 (as amended). For every string forgiving-base64 decoding rejects
    (without its ASCII whitespace and, when that leaves a multiple of four
    characters, without one or two final [=]: a length of 1 modulo 4, or a
    character outside the alphabet), the operation that decodes it fails
    with an [InvalidCharacterError] (InvalidEncoding): [hash] for such a
    salt, [decrypt] for such a ciphertext or iv. *)
Theorem undecodable_base64_is_rejected :
  (forall text salt,
      forgiving_base64_decode salt = None ->
      hash text salt = Err InvalidCharacterError)
  /\ (forall ciphertext iv secret,
         forgiving_base64_decode iv = None
         \/ forgiving_base64_decode ciphertext = None ->
         decrypt ciphertext iv secret = Err InvalidCharacterError)
  /\ kind_of InvalidCharacterError = InvalidEncoding.
Proof.
  split; [|split; [|reflexivity]].
  - intros text salt H. now rewrite hash_unfold, b642u8a_decode, H.
  - intros ciphertext iv secret H.
    rewrite decrypt_unfold, !b642u8a_decode.
    destruct (forgiving_base64_decode iv) as [algorithm_iv|];
      [|reflexivity].
    destruct H as [H | H]; [discriminate|]. now rewrite H.
Qed.

Lemma base64_encode_injective (x y : list byte) :
  base64_encode x = base64_encode y -> x = y.
Proof.
  intros H. pose proof (b642u8a_encode x) as Hx.
  rewrite H, b642u8a_encode in Hx. congruence.
Qed.

(** X19. Two successive calls [encrypt p s], for a plaintext whose
    ciphertext is within the engine's bound on arguments, take their IVs
    from the two consecutive, non-overlapping 64-byte windows of the random
    source; the two iv strings, and the two outputs, are equal exactly when
    the two windows hold the same bytes. *)
Theorem successive_encrypt_ivs
    (plaintext secret : DOMString) (rs : RandomSource) :
  N.of_nat (length (TextEncoder_encode plaintext) + 16) <= max_arguments ->
  let first := encrypt plaintext secret rs in
  let second := encrypt plaintext secret (snd first) in
  let window1 := map (entropy rs) (seq (consumed rs) 64) in
  let window2 := map (entropy rs) (seq (consumed rs + 64) 64) in
  exists e1 e2,
    fst first = Ok e1 /\ fst second = Ok e2
    /\ b642u8a (iv e1) = Ok window1
    /\ b642u8a (iv e2) = Ok window2
    /\ (iv e1 = iv e2 <-> window1 = window2)
    /\ (e1 = e2 <-> window1 = window2).
Proof.
  intros L first second window1 window2. subst first second.
  rewrite !encrypt_within by assumption. cbn [fst snd].
  change (window rs 64) with window1.
  change (window (advance rs 64) 64) with window2.
  eexists. eexists. split; [reflexivity|]. split; [reflexivity|].
  cbn [iv]. split; [apply b642u8a_encode|].
  split; [apply b642u8a_encode|]. split; split.
  - apply base64_encode_injective.
  - now intros ->.
  - intros H. apply (f_equal iv) in H. cbn [iv] in H.
    now apply base64_encode_injective.
  - now intros ->.
Qed.

End Facade.

(* ================================================================== *)
(** ** Sizes of the encodings *)

(** Four characters for every three bytes, the last group padded. *)
Lemma base64_encode_length (bs : list byte) :
  N.of_nat (length (base64_encode bs))
  = 4 * ((N.of_nat (length bs) + 2) / 3).
Proof.
  induction bs as [|x|x y|x y z bs IH] using list_ind3;
    try reflexivity.
  cbn [base64_encode]. cbv zeta. cbn [length].
  rewrite !Nat2N.inj_succ, IH.
  generalize (N.of_nat (length bs)). intros n. nlia.
Qed.

(** The bytes the decoding loop gives: three for every four characters,
    those waiting in the buffer counted in. *)
Lemma decode_loop_length (data : DOMString) (buffer : N) (filled : nat) :
  (filled <= 3)%nat ->
  N.of_nat (length (decode_loop data buffer filled))
  = 3 * (N.of_nat (length data) + N.of_nat filled) / 4.
Proof.
  revert buffer filled.
  induction data as [|c data IH]; intros buffer filled Hf.
  - destruct filled as [|[|[|[|f]]]]; try reflexivity. lia.
  - destruct filled as [|[|[|[|f]]]]; try lia;
      cbn [decode_loop]; cbv zeta; cbn [length];
      rewrite ?Nat2N.inj_succ, IH by lia;
      rewrite ?Nat2N.inj_succ; cbn [N.of_nat];
      generalize (N.of_nat (length data)); intros n; nlia.
Qed.

(** X1. [u8a2b64] of an array within the engine's bound on arguments
    returns four characters for every three bytes of the array, rounded
    up; of a longer array it throws a [RangeError]. *)
Theorem u8a2b64_length {JS : JavaScriptEngine} (u8a : Uint8Array) :
  (N.of_nat (length u8a) <= max_arguments ->
   exists s,
     u8a2b64 u8a = Ok s
     /\ N.of_nat (length s) = 4 * ((N.of_nat (length u8a) + 2) / 3))
  /\ (max_arguments < N.of_nat (length u8a) ->
      u8a2b64 u8a = Err RangeError).
Proof.
  split.
  - intros L. exists (base64_encode u8a). split.
    + now apply u8a2b64_encode.
    + apply base64_encode_length.
  - apply u8a2b64_too_long.
Qed.

(** X8. The bytes [b642u8a] returns number three for every four characters
    left of the string after stripping, rounded down. *)
Theorem b642u8a_length (b64 : DOMString) (u8a : Uint8Array) :
  b642u8a b64 = Ok u8a ->
  N.of_nat (length u8a)
  = 3 * N.of_nat (length (forgiving_strip b64)) / 4.
Proof.
  rewrite b642u8a_decode. unfold forgiving_base64_decode.
  destruct (_ =? 1); [discriminate|].
  destruct (negb _); [discriminate|].
  intros [= <-]. rewrite decode_loop_length by lia.
  now rewrite N.add_0_r.
Qed.

(* ================================================================== *)
(** ** What [b642u8a] tolerates *)

Lemma filter_idempotent {A : Type} (f : A -> bool) (l : list A) :
  filter f (filter f l) = filter f l.
Proof.
  induction l as [|a l IH]; [reflexivity|].
  cbn [filter]. destruct (f a) eqn:Ha; [|assumption].
  cbn [filter]. now rewrite Ha, IH.
Qed.

(** X6. [b642u8a] ignores ASCII whitespace: two strings that are the same
    once their tabs, line feeds, form feeds, carriage returns and spaces
    are removed decode alike (to the same bytes, or both not at all). *)
Theorem b642u8a_ignores_whitespace (s1 s2 : DOMString) :
  filter (fun c => negb (is_ascii_whitespace c)) s1
  = filter (fun c => negb (is_ascii_whitespace c)) s2 ->
  b642u8a s1 = b642u8a s2.
Proof.
  intros H. rewrite !b642u8a_decode.
  unfold forgiving_base64_decode, forgiving_strip. now rewrite H.
Qed.

(** X7. The padding is optional for [b642u8a]: the encoding of any byte
    sequence, with its [=] characters removed, decodes to the bytes. *)
Theorem b642u8a_without_padding (u8a : Uint8Array) :
  b642u8a (filter (fun c => negb (c =? pad)) (base64_encode u8a)) = Ok u8a.
Proof.
  destruct (base64_encode_shape u8a)
    as (body & p & -> & Hb & Hp & Hlen & Hdec).
  rewrite filter_app.
  replace (filter _ p) with (@nil code_unit)
    by (destruct Hp as [-> | [-> | ->]]; reflexivity).
  rewrite app_nil_r, filter_all.
  2:{ apply forallb_forall. intros c Hc. rewrite forallb_forall in Hb.
      now rewrite b64_char_not_pad by auto. }
  rewrite b642u8a_decode, forgiving_decode_unpadded, Hdec;
    [reflexivity|assumption|].
  rewrite length_app in Hlen.
  destruct Hp as [-> | [-> | ->]]; cbn [length] in Hlen; nlia.
Qed.


(* ================================================================== *)
(** ** What the UTF-8 decoder emits *)

Lemma replacement_scalar : scalar_value replacement.
Proof. unfold scalar_value, replacement. lia. Qed.

(** A first byte leaves the decoder in such a state and emits at most one
    scalar value. *)
Lemma lead_byte_ok (b : N) :
  pending_ok (fst (lead_byte b))
  /\ Forall scalar_value (snd (lead_byte b)).
Proof.
  assert (Idle : pending_ok initial) by now left.
  assert (Err1 : Forall scalar_value [replacement])
    by (constructor; [apply replacement_scalar|constructor]).
  unfold lead_byte.
  destruct (N.leb_spec b 0x7F).
  { split; [assumption|]. repeat constructor. unfold scalar_value. lia. }
  destruct (N.leb_spec 0xC2 b), (N.leb_spec b 0xDF); cbn [andb fst snd];
    try (split; [|constructor]; right;
         unfold pending_ok, expecting;
         cbn [code_point bytes_seen bytes_needed lower_boundary
              upper_boundary]; lia).
  all: destruct (N.leb_spec 0xE0 b), (N.leb_spec b 0xEF);
    cbn [andb fst snd]; try lia;
    try (split; [|constructor]; right;
         unfold pending_ok, expecting;
         cbn [code_point bytes_seen bytes_needed lower_boundary
              upper_boundary];
         destruct (N.eqb_spec b 0xE0), (N.eqb_spec b 0xED); lia).
  all: destruct (N.leb_spec 0xF0 b), (N.leb_spec b 0xF4);
    cbn [andb fst snd]; try lia; try (split; assumption).
  all: split; [|constructor]; right;
    unfold pending_ok, expecting;
    cbn [code_point bytes_seen bytes_needed lower_boundary upper_boundary];
    destruct (N.eqb_spec b 0xF0), (N.eqb_spec b 0xF4); lia.
Qed.

Lemma decode_idle (st : decoder) (b : N) (rest : list N) :
  bytes_needed st = 0 ->
  decode_bytes st (b :: rest)
  = snd (lead_byte b) ++ decode_bytes (fst (lead_byte b)) rest.
Proof.
  intros H. cbn [decode_bytes]. rewrite H. cbn [N.eqb].
  now destruct (lead_byte b).
Qed.

(** A byte outside the boundaries: an error, and the byte is read again
    as a first byte. *)
Lemma decode_restart (cp seen needed lo hi b : N) (rest : list N) :
  needed <> 0 -> b < lo \/ hi < b ->
  decode_bytes
    {| code_point := cp; bytes_seen := seen; bytes_needed := needed;
       lower_boundary := lo; upper_boundary := hi |} (b :: rest)
  = replacement
      :: snd (lead_byte b) ++ decode_bytes (fst (lead_byte b)) rest.
Proof.
  intros Hn Hb. cbn [decode_bytes bytes_needed lower_boundary upper_boundary
                     code_point bytes_seen].
  destruct (N.eqb_spec needed 0); [contradiction|].
  destruct (N.ltb_spec b lo), (N.ltb_spec hi b); cbn [orb]; try lia;
    now destruct (lead_byte b).
Qed.

Lemma continuation_value (b : N) :
  0x80 <= b -> b <= 0xBF -> b mod 64 = b - 0x80.
Proof. intros H1 H2. nlia. Qed.

(** Whatever the bytes, the decoder emits scalar values only. *)
Lemma decode_bytes_scalar (bs : list N) (st : decoder) :
  pending_ok st -> Forall scalar_value (decode_bytes st bs).
Proof.
  revert st. induction bs as [|b bs IH]; intros st Hst.
  - cbn [decode_bytes]. destruct (_ =? 0); [constructor|].
    constructor; [apply replacement_scalar|constructor].
  - destruct (lead_byte_ok b) as [Lst Lout].
    assert (Restart :
      Forall scalar_value
        (replacement
           :: snd (lead_byte b) ++ decode_bytes (fst (lead_byte b)) bs)).
    { constructor; [apply replacement_scalar|].
      apply Forall_app. split; [assumption|now apply IH]. }
    destruct st as [cp seen needed lo hi].
    unfold pending_ok in Hst.
    cbn [code_point bytes_seen bytes_needed lower_boundary upper_boundary]
      in Hst.
    destruct Hst as [H | (L & U & Hst)].
    { rewrite decode_idle by assumption.
      apply Forall_app. split; [assumption|now apply IH]. }
    assert (Hn : needed <> 0) by lia.
    destruct (N.ltb_spec b lo) as [Hlo | Hlo];
      [rewrite decode_restart by (assumption || now left); assumption|].
    destruct (N.ltb_spec hi b) as [Hhi | Hhi];
      [rewrite decode_restart by (assumption || now right); assumption|].
    rewrite decode_continue by (assumption || lia).
    rewrite continuation_value by lia.
    set (cp' := cp * 64 + (b - 0x80)).
    assert (Emit : scalar_value cp' ->
                   Forall scalar_value (cp' :: decode_bytes initial bs)).
    { intros H. constructor; [assumption|]. apply IH. now left. }
    destruct Hst as [(-> & -> & Hcp)
                    |[(-> & -> & Hcp & L0 & U13)
                    |[(-> & -> & Hcp & Hsur)
                    |[(-> & -> & Hcp & L0 & U4)
                    |[(-> & -> & Hcp)
                     |(-> & -> & Hcp)]]]]].
    + apply Emit. unfold scalar_value. lia.
    + apply IH. right.
      cbn [code_point bytes_seen bytes_needed lower_boundary upper_boundary].
      split; [lia|]. split; [lia|]. do 2 right; left.
      repeat split; try reflexivity; lia.
    + apply Emit. unfold scalar_value. lia.
    + apply IH. right.
      cbn [code_point bytes_seen bytes_needed lower_boundary upper_boundary].
      split; [lia|]. split; [lia|]. do 4 right; left.
      repeat split; try reflexivity; lia.
    + apply IH. right.
      cbn [code_point bytes_seen bytes_needed lower_boundary upper_boundary].
      split; [lia|]. split; [lia|]. do 5 right.
      repeat split; try reflexivity; lia.
    + apply Emit. unfold scalar_value. lia.
Qed.

(** The code units of scalar values make a well-formed string. *)
Lemma utf16_units_well_formed (cps : list N) :
  Forall scalar_value cps -> well_formed (flat_map utf16_units cps) = true.
Proof.
  induction 1 as [|cp cps Hcp _ IH]; [reflexivity|].
  cbn [flat_map]. unfold utf16_units, scalar_value in *.
  destruct (N.ltb_spec cp 0x10000) as [H | H]; cbn [app well_formed].
  - replace (is_lead_surrogate cp) with false
      by (unfold is_lead_surrogate; break_tests).
    replace (is_trail_surrogate cp) with false
      by (unfold is_trail_surrogate; break_tests).
    replace (cp <? 0x10000) with true by (symmetry; now apply N.ltb_lt).
    exact IH.
  - set (hi := 0xD800 + (cp - 0x10000) / 0x400).
    set (lo := 0xDC00 + (cp - 0x10000) mod 0x400).
    assert (Hhi : 0xD800 <= hi <= 0xDBFF) by (subst hi; nlia).
    assert (Hlo : 0xDC00 <= lo <= 0xDFFF) by (subst lo; nlia).
    replace (is_lead_surrogate hi) with true
      by (unfold is_lead_surrogate; break_tests).
    replace (is_trail_surrogate lo) with true
      by (unfold is_trail_surrogate; break_tests).
    exact IH.
Qed.

Lemma drop_BOM_scalar (cps : list N) :
  Forall scalar_value cps -> Forall scalar_value (drop_BOM cps).
Proof.
  intros H. destruct cps as [|c cps]; [constructor|].
  cbn [drop_BOM]. destruct (c =? BOM); [|assumption].
  now apply Forall_inv_tail in H.
Qed.

(** [TextDecoder] returns well-formed strings only. *)
Lemma TextDecoder_decode_well_formed (bytes : Uint8Array) :
  well_formed (TextDecoder_decode bytes) = true.
Proof.
  unfold TextDecoder_decode.
  apply utf16_units_well_formed, drop_BOM_scalar, decode_bytes_scalar.
  now left.
Qed.

(** The code points of a well-formed string, read back from its UTF-8
    bytes. *)
Lemma to_scalar_values_of_encoding (s : DOMString) :
  Forall (fun c => c < 0x10000) s ->
  decode_bytes initial (map Byte.to_N (TextEncoder_encode s))
  = to_scalar_values s.
Proof.
  intros H. apply to_scalar_values_scalar in H. unfold TextEncoder_encode.
  rewrite map_to_N_byte_of_N by now apply encode_scalars_bytes.
  now apply decode_encode_scalars.
Qed.

(** [TextEncoder] tells well-formed strings apart. *)
Lemma TextEncoder_encode_injective (s1 s2 : DOMString) :
  well_formed s1 = true -> well_formed s2 = true ->
  TextEncoder_encode s1 = TextEncoder_encode s2 -> s1 = s2.
Proof.
  intros W1 W2 H.
  rewrite <- (utf16_of_scalar_values s1 W1).
  rewrite <- (utf16_of_scalar_values s2 W2).
  rewrite <- !to_scalar_values_of_encoding by now apply well_formed_units.
  now rewrite H.
Qed.

(** One to three bytes for a code unit, four for a surrogate pair. *)
Lemma TextEncoder_encode_length (s : DOMString) :
  Forall (fun c => c < 0x10000) s ->
  (length s <= length (TextEncoder_encode s) <= 3 * length s)%nat.
Proof.
  unfold TextEncoder_encode. rewrite length_map.
  assert (R : length (encode_scalar replacement) = 3%nat) by reflexivity.
  assert (One : forall c, c < 0x10000 ->
                (1 <= length (encode_scalar c) <= 3)%nat).
  { intros c Hc. unfold encode_scalar. break_tests; cbn [length]; lia. }
  induction s as [|c|c d s IHs IHd] using list_ind2; intros H.
  - cbn. lia.
  - apply Forall_inv in H. cbv beta in H. cbn [to_scalar_values].
    destruct (is_lead_surrogate c); [cbn; lia|].
    destruct (is_trail_surrogate c); [cbn; lia|].
    cbn [flat_map]. rewrite app_nil_r. specialize (One c H).
    cbn [length]. lia.
  - pose proof (Forall_inv H) as Hc. cbv beta in Hc.
    apply Forall_inv_tail in H. specialize (IHd H).
    specialize (IHs (Forall_inv_tail H)).
    cbn [to_scalar_values] in IHd |- *.
    destruct (is_lead_surrogate c) eqn:L.
    + destruct (is_trail_surrogate d) eqn:T.
      * destruct (surrogate_pair_value c d L T) as [B _].
        cbn [flat_map]. rewrite length_app.
        replace (length (encode_scalar _)) with 4%nat.
        -- cbn [length]. lia.
        -- unfold encode_scalar. cbv zeta in B. break_tests; reflexivity.
      * cbn [flat_map]. rewrite length_app, R. cbn [length] in IHd |- *.
        lia.
    + destruct (is_trail_surrogate c).
      * cbn [flat_map]. rewrite length_app, R. cbn [length] in IHd |- *.
        lia.
      * cbn [flat_map]. rewrite length_app. specialize (One c Hc).
        cbn [length] in IHd |- *. lia.
Qed.

(* ================================================================== *)
(** ** Further properties of the facade *)

Section FacadeProperties.

Context {JS : JavaScriptEngine} {E : SubtleCrypto}.

(** X2. [salt] returns 88 characters and moves the random source on by its
    64 bytes. *)
Theorem salt_length (rs : RandomSource) :
  exists s,
    salt rs = (Ok s, advance rs 64) /\ length s = 88%nat.
Proof.
  exists (base64_encode (window rs 64)). split; [apply salt_unfold|].
  apply Nat2N.inj. rewrite base64_encode_length, window_length.
  reflexivity.
Qed.

(** X18. Two successive calls of [salt] encode two consecutive,
    non-overlapping windows of the random source, and return the same
    string exactly when the two windows hold the same bytes. *)
Theorem successive_salts (rs : RandomSource) :
  let window1 := map (entropy rs) (seq (consumed rs) 64) in
  let window2 := map (entropy rs) (seq (consumed rs + 64) 64) in
  exists s1 s2,
    fst (salt rs) = Ok s1
    /\ fst (salt (snd (salt rs))) = Ok s2
    /\ b642u8a s1 = Ok window1
    /\ b642u8a s2 = Ok window2
    /\ (s1 = s2 <-> window1 = window2).
Proof.
  intros window1 window2. rewrite !salt_unfold. cbn [fst snd].
  try rewrite salt_unfold. cbn [fst].
  change (window rs 64) with window1.
  change (window (advance rs 64) 64) with window2.
  eexists. eexists. split; [reflexivity|]. split; [reflexivity|].
  split; [apply b642u8a_encode|]. split; [apply b642u8a_encode|].
  split; [apply base64_encode_injective|now intros ->].
Qed.

(** X11. [hash] depends on the text only through its UTF-8 encoding: texts
    with the same encoding, such as two that differ in a surrogate outside
    a pair, have the same hash under every salt. *)
Theorem hash_depends_on_text_encoding (text1 text2 salt : DOMString) :
  TextEncoder_encode text1 = TextEncoder_encode text2 ->
  hash text1 salt = hash text2 salt.
Proof.
  intros H. rewrite !hash_of_decoded_salt. now rewrite H.
Qed.

(** X13. Well-formed texts are never confused: two well-formed texts that
    [hash] imports as the same key material are the same text. *)
Theorem hash_key_material_injective (text1 text2 : DOMString) :
  well_formed text1 = true -> well_formed text2 = true ->
  importKey_PBKDF2 (TextEncoder_encode text1)
  = importKey_PBKDF2 (TextEncoder_encode text2) ->
  text1 = text2.
Proof.
  intros W1 W2. unfold importKey_PBKDF2. intros [= H].
  now apply TextEncoder_encode_injective.
Qed.

(** X10. [decrypt] depends on the ciphertext and iv strings only through
    the bytes they decode to: whitespace, missing padding or other unused
    bits in either string change nothing. *)
Theorem decrypt_depends_on_decoded_bytes
    (ciphertext1 ciphertext2 iv1 iv2 secret : DOMString) :
  b642u8a iv1 = b642u8a iv2 ->
  b642u8a ciphertext1 = b642u8a ciphertext2 ->
  decrypt ciphertext1 iv1 secret = decrypt ciphertext2 iv2 secret.
Proof.
  intros Hiv Hct. unfold decrypt. now rewrite Hiv, Hct.
Qed.

(** X12. [encrypt] and [decrypt] depend on the secret only through its
    UTF-8 encoding: secrets with the same encoding are the same key. *)
Theorem secret_is_its_encoding
    (secret1 secret2 : DOMString) :
  TextEncoder_encode secret1 = TextEncoder_encode secret2 ->
  (forall plaintext rs,
      encrypt plaintext secret1 rs = encrypt plaintext secret2 rs)
  /\ (forall ciphertext iv,
         decrypt ciphertext iv secret1 = decrypt ciphertext iv secret2).
Proof.
  intros H. split.
  - intros plaintext rs. unfold encrypt. now rewrite H.
  - intros ciphertext iv. unfold decrypt. now rewrite H.
Qed.

(** X15. Whatever its arguments, a string [decrypt] returns is well-formed
    UTF-16: it holds no surrogate outside a pair. *)
Theorem decrypt_returns_well_formed
    (ciphertext iv secret plaintext : DOMString) :
  decrypt ciphertext iv secret = Ok plaintext ->
  well_formed plaintext = true.
Proof.
  unfold decrypt, digest_SHA_256.
  destruct (b642u8a iv) as [algorithm_iv|]; [|discriminate].
  cbn [bind]. destruct (importKey_AES_GCM _) as [key|]; [|discriminate].
  cbn [bind]. destruct (b642u8a ciphertext) as [data|]; [|discriminate].
  cbn [bind]. destruct (decrypt_AES_GCM _ _ _) as [d|]; [|discriminate].
  cbn [bind]. intros [= <-]. apply TextDecoder_decode_well_formed.
Qed.

Context {HE : Conforming E}.

(** X3. For every text and every salt that decodes, [hash] returns 88
    characters of canonical base 64 that decode to 64 bytes. *)
Theorem hash_length (text salt : DOMString) (salt_bytes : Uint8Array) :
  b642u8a salt = Ok salt_bytes ->
  exists h bits,
    hash text salt = Ok h
    /\ length h = 88%nat
    /\ canonical_b64 h = true
    /\ b642u8a h = Ok bits
    /\ length bits = 64%nat.
Proof.
  intros B. rewrite hash_unfold, B. cbn [bind].
  eexists. eexists. split; [reflexivity|].
  split; [|split; [apply base64_encode_canonical|
                   split; [apply b642u8a_encode|now rewrite PBKDF2_length]]].
  apply Nat2N.inj. now rewrite base64_encode_length, PBKDF2_length.
Qed.

(** The ciphertext [encrypt] returns decodes to the encrypted bytes and
    the tag. *)
Lemma ciphertext_decodes
    (plaintext secret : DOMString) (rs : RandomSource) :
  N.of_nat (length (TextEncoder_encode plaintext) + 16) <= max_arguments ->
  exists e data,
    fst (encrypt plaintext secret rs) = Ok e
    /\ iv e = base64_encode (window rs 64)
    /\ b642u8a (ciphertext e) = Ok data
    /\ length data = (length (TextEncoder_encode plaintext) + 16)%nat.
Proof.
  intros L. rewrite encrypt_within by assumption. cbn [fst].
  eexists. eexists.
  split; [reflexivity|]. cbn [iv ciphertext]. split; [reflexivity|].
  split; [apply b642u8a_encode|]. apply encrypted_length.
Qed.

(** X4. The sizes of what [encrypt] returns for a plaintext whose
    ciphertext is within the engine's bound on arguments: the iv has 88
    characters, and the ciphertext decodes to the UTF-8 bytes of the
    plaintext in number, and 16 bytes of tag more. *)
Theorem encrypt_sizes (plaintext secret : DOMString) (rs : RandomSource) :
  N.of_nat (length (TextEncoder_encode plaintext) + 16) <= max_arguments ->
  exists e data,
    fst (encrypt plaintext secret rs) = Ok e
    /\ length (iv e) = 88%nat
    /\ b642u8a (ciphertext e) = Ok data
    /\ length data = (length (TextEncoder_encode plaintext) + 16)%nat.
Proof.
  intros L.
  destruct (ciphertext_decodes plaintext secret rs L)
    as (e & data & He & Hiv & Hd & Hl).
  exists e, data. split; [assumption|].
  split; [|split; assumption].
  rewrite Hiv. apply Nat2N.inj.
  rewrite base64_encode_length, window_length. reflexivity.
Qed.

(** X5. The ciphertext of a plaintext of [n] code units, when it is within
    the engine's bound on arguments, decodes to at least [n + 16] and at
    most [3 n + 16] bytes. *)
Theorem ciphertext_size_bounds
    (plaintext secret : DOMString) (rs : RandomSource) :
  Forall (fun c => c < 0x10000) plaintext ->
  N.of_nat (length (TextEncoder_encode plaintext) + 16) <= max_arguments ->
  exists e data,
    fst (encrypt plaintext secret rs) = Ok e
    /\ b642u8a (ciphertext e) = Ok data
    /\ (length plaintext + 16 <= length data
        <= 3 * length plaintext + 16)%nat.
Proof.
  intros H L. apply TextEncoder_encode_length in H.
  destruct (ciphertext_decodes plaintext secret rs L)
    as (e & data & He & _ & Hd & Hl).
  exists e, data. split; [assumption|]. split; [assumption|]. lia.
Qed.

(** X14. What [decrypt] returns for what [encrypt] returned, whatever the
    plaintext: the plaintext with every surrogate outside a pair replaced
    by U+FFFD, and without its first code point if that is U+FEFF; and
    [encrypt] does return when the ciphertext is within the engine's bound
    on arguments. *)
Theorem decrypt_encrypt_normalises
    (plaintext secret : DOMString) (rs : RandomSource) :
  Forall (fun c => c < 0x10000) plaintext ->
  (forall e,
      fst (encrypt plaintext secret rs) = Ok e ->
      decrypt (ciphertext e) (iv e) secret
      = Ok (flat_map utf16_units
              (drop_BOM (to_scalar_values plaintext))))
  /\ (N.of_nat (length (TextEncoder_encode plaintext) + 16)
      <= max_arguments ->
      exists e, fst (encrypt plaintext secret rs) = Ok e).
Proof.
  intros H. split.
  - intros e He. rewrite (decrypt_encrypt _ _ _ _ He).
    now rewrite TextDecoder_TextEncoder_normalises.
  - intros L. rewrite encrypt_within by assumption. now eexists.
Qed.

(** A text of [n] letters is encoded in [n] bytes. *)
Lemma TextEncoder_encode_letters (n : nat) :
  length (TextEncoder_encode (repeat 0x61 n)) = n.
Proof.
  unfold TextEncoder_encode. rewrite length_map.
  induction n as [|n IH]; [reflexivity|].
  cbn [repeat to_scalar_values].
  change (is_lead_surrogate 0x61) with false.
  change (is_trail_surrogate 0x61) with false. cbv iota.
  cbn [flat_map]. rewrite length_app, IH. reflexivity.
Qed.

(** C4, where the code departs from it. On an engine whose calls take
    fewer than 200016 arguments, [encrypt] of a plaintext of 200000 letters
    [a] returns no [{iv, ciphertext}]: the 200016 bytes of the ciphertext
    are spread into one call of [String.fromCharCode], which throws a
    [RangeError]. *)
Theorem encrypt_throws_on_large_plaintext
    (secret : DOMString) (rs : RandomSource) :
  max_arguments < 200016 ->
  fst (encrypt (repeat 0x61 (N.to_nat 200000)) secret rs)
  = Err RangeError.
Proof.
  intros H. apply encrypt_too_long.
  rewrite TextEncoder_encode_letters. lia.
Qed.

(** X16. Data shorter than a tag is rejected: when the ciphertext decodes
    to fewer than 16 bytes (the empty string, for one), [decrypt] fails
    with an [OperationError], whatever the secret and the iv that
    decodes. *)
Theorem decrypt_rejects_short_data
    (ciphertext iv secret : DOMString) (algorithm_iv data : list byte) :
  b642u8a iv = Ok algorithm_iv ->
  b642u8a ciphertext = Ok data ->
  (length data < 16)%nat ->
  decrypt ciphertext iv secret = Err OperationError.
Proof.
  intros Hiv Hct Hlen. rewrite decrypt_unfold, Hiv, Hct. cbn [bind].
  unfold decrypt_AES_GCM, tag_verifies, tag_bytes.
  replace (16 <=? length data)%nat with false
    by (symmetry; apply Nat.leb_gt; assumption).
  reflexivity.
Qed.


(** X21. A changed tag is always detected: when the ciphertext [encrypt]
    returned decodes to a body and a tag of 16 bytes, a ciphertext that
    decodes to the same body followed by any other 16 bytes is rejected by
    [decrypt] under the same iv and secret, with an [OperationError]. *)
Theorem decrypt_rejects_altered_tag
    (plaintext secret : DOMString) (rs : RandomSource) (e : Encryption)
    (ciphertext' : DOMString) (body tag tag' : list byte) :
  fst (encrypt plaintext secret rs) = Ok e ->
  b642u8a (ciphertext e) = Ok (body ++ tag) ->
  length tag = 16%nat ->
  length tag' = 16%nat ->
  tag' <> tag ->
  b642u8a ciphertext' = Ok (body ++ tag') ->
  decrypt ciphertext' (iv e) secret = Err OperationError.
Proof.
  intros He Hct Ht Ht' Hne Hct'.
  apply encrypt_returns in He as [L He].
  rewrite encrypt_within in He by assumption.
  apply (f_equal fst) in He. cbn [fst] in He.
  apply Ok_injective in He. subst e. cbn [iv ciphertext] in Hct |- *.
  rewrite b642u8a_encode in Hct. apply Ok_injective in Hct.
  set (key := SHA_256 (TextEncoder_encode secret)) in *.
  set (C := GCTR key (window rs 64) (TextEncoder_encode plaintext)) in *.
  set (T := AES_GCM_tag key (window rs 64) C) in *.
  assert (HT : length T = tag_bytes) by apply AES_GCM_tag_length.
  destruct (split_tag C T HT) as [HC1 HT1].
  destruct (split_tag body tag Ht) as [HC2 HT2].
  rewrite Hct in HC1, HT1. rewrite HC2 in HC1. rewrite HT2 in HT1.
  subst body tag.
  rewrite decrypt_unfold, b642u8a_encode, Hct'. cbn [bind].
  unfold decrypt_AES_GCM, tag_verifies.
  destruct (split_tag C tag' Ht') as [-> ->].
  subst T C key. destruct (bytes_eqb tag' _) eqn:B.
  - apply bytes_eqb_eq in B. contradiction.
  - now rewrite andb_false_r.
Qed.

End FacadeProperties.

(* ================================================================== *)
(** ** Runs on the checksum engine *)

Lemma spread_length (seed : N) (n : nat) : length (spread seed n) = n.
Proof. unfold spread. now rewrite length_map, length_seq. Qed.

Lemma checksum_engine_conforming : Conforming checksum_engine.
Proof.
  split; intros; cbn [SHA_256 PBKDF2_HMAC_SHA512 AES_GCM_tag checksum_engine];
    apply spread_length.
Qed.

#[local] Existing Instance checksum_engine.
#[local] Existing Instance engine_65536.

(** C1, an instance: "secret message" under "key123". *)
Lemma decrypt_encrypt_roundtrip_witness :
  exists e,
    fst (encrypt (str "secret message") (str "key123") counting_source) = Ok e
    /\ decrypt (ciphertext e) (iv e) (str "key123")
       = Ok (str "secret message").
Proof.
  destruct (decrypt_encrypt_roundtrip (HE := checksum_engine_conforming)
              (str "secret message") (str "key123") counting_source)
    as [Hd Hr].
  - reflexivity.
  - vm_compute. lia.
  - destruct Hr as [e He]; [vm_compute; discriminate|].
    exists e. split; [exact He|exact (Hd e He)].
Defined.

(** C1 does not hold of every plaintext: one that begins with U+FEFF comes
    back without it. *)
Lemma roundtrip_drops_byte_order_mark :
  exists e,
    fst (encrypt (0xFEFF :: str "hi") (str "key123") counting_source) = Ok e
    /\ decrypt (ciphertext e) (iv e) (str "key123") = Ok (str "hi")
    /\ str "hi" <> 0xFEFF :: str "hi".
Proof.
  eexists. split; [vm_compute; reflexivity|].
  split; [vm_compute; reflexivity|]. discriminate.
Qed.

(** A surrogate outside a pair comes back as U+FFFD. *)
Example roundtrip_replaces_lone_surrogate :
  exists e,
    fst (encrypt [0xD800] (str "key123") counting_source) = Ok e
    /\ decrypt (ciphertext e) (iv e) (str "key123") = Ok [0xFFFD].
Proof.
  eexists. split; [vm_compute; reflexivity|]. vm_compute. reflexivity.
Qed.

(** C3, an instance: "hello" with the salt "AAECAw==". *)
Lemma hash_is_PBKDF2_witness :
  exists salt_bytes,
    forgiving_base64_decode (str "AAECAw==") = Some salt_bytes
    /\ (canonical_b64 (str "AAECAw==") = true ->
        base64_encode salt_bytes = str "AAECAw==")
    /\ b642u8a (str "AAECAw==") = Ok salt_bytes
    /\ hash (str "hello") (str "AAECAw==") =
       Ok (base64_encode
             (PBKDF2_HMAC_SHA512 (TextEncoder_encode (str "hello"))
                salt_bytes 1000 64))
    /\ length
         (PBKDF2_HMAC_SHA512 (TextEncoder_encode (str "hello")) salt_bytes
            1000 64)
       = 64%nat.
Proof.
  apply (hash_is_PBKDF2 (HE := checksum_engine_conforming)).
  reflexivity.
Defined.

(** The salt of that instance decodes to the bytes 0, 1, 2, 3. *)
Example salt_AAECAw :
  forgiving_base64_decode (str "AAECAw==") = Some [x00; x01; x02; x03].
Proof. reflexivity. Qed.

(** C4, at the failing input: the engine of 65536 arguments throws. *)
Lemma encrypt_throws_on_large_plaintext_witness :
  fst (encrypt (repeat 0x61 (N.to_nat 200000)) (str "key123")
         counting_source)
  = Err RangeError.
Proof.
  apply (encrypt_throws_on_large_plaintext
           (HE := checksum_engine_conforming)).
  reflexivity.
Defined.

(** X20, an instance: "secret message" under "key123". *)
Lemma encrypt_computes_witness :
  let algorithm_iv := window counting_source 64 in
  let key := SHA_256 (TextEncoder_encode (str "key123")) in
  let C :=
    GCTR key algorithm_iv (TextEncoder_encode (str "secret message")) in
  let e := {| iv := base64_encode algorithm_iv;
              ciphertext :=
                base64_encode (C ++ AES_GCM_tag key algorithm_iv C) |} in
  encrypt (str "secret message") (str "key123") counting_source
  = (Ok e, advance counting_source 64)
  /\ encrypt_AES_GCM algorithm_iv key
       (TextEncoder_encode (str "secret message"))
     = Ok (C ++ AES_GCM_tag key algorithm_iv C)
  /\ length key = 32%nat
  /\ length algorithm_iv = 64%nat
  /\ b642u8a (iv e) = Ok algorithm_iv
  /\ canonical_b64 (iv e) = true
  /\ canonical_b64 (ciphertext e) = true.
Proof.
  apply (encrypt_computes (HE := checksum_engine_conforming)
           (str "secret message") (str "key123") counting_source).
  vm_compute. discriminate.
Defined.

(** The strings of that instance. *)
Example encrypt_secret_message :
  fst (encrypt (str "secret message") (str "key123") counting_source)
  = Ok {| iv :=
            str ("AAECAwQFBgcICQoLDA0ODxAREhMUFRYXGBkaGxwdHh8gISIjJCUmJygp"
                 ++ "KissLS4vMDEyMzQ1Njc4OTo7PD0+Pw==");
          ciphertext := str "wdbXx9PDmNTfyM/c2drz59vPw7ern5OHe29jV0s/" |}.
Proof. vm_compute. reflexivity. Qed.

(** C5 does not hold: the empty text is hashed like any other, here with
    the salt "AAAA", three zero bytes. *)
Lemma hash_of_empty_text_returns :
  hash [] (str "AAAA")
  = Ok (base64_encode (PBKDF2_HMAC_SHA512 [] [x00; x00; x00] 1000 64))
  /\ length (PBKDF2_HMAC_SHA512 [] [x00; x00; x00] 1000 64) = 64%nat.
Proof. split; vm_compute; reflexivity. Qed.

(** C5, an instance: the empty text with the salt "AAAA". *)
Lemma hash_of_empty_text_witness :
  hash [] (str "AAAA")
  = Ok (base64_encode (PBKDF2_HMAC_SHA512 [] [x00; x00; x00] 1000 64)).
Proof.
  exact (proj1 (proj2 (hash_of_empty_text (str "AAAA"))
                  checksum_engine_conforming)).
Defined.

(** C6, an instance of each part: the bytes of "foob" and their
    encoding. *)
Lemma base64_roundtrip_witness :
  (s <- u8a2b64 [x66; x6f; x6f; x62] ;; b642u8a s)
  = Ok [x66; x6f; x6f; x62]
  /\ (b <- b642u8a (str "Zm9vYg==") ;; u8a2b64 b) = Ok (str "Zm9vYg==").
Proof.
  split.
  - apply (proj1 base64_roundtrip). vm_compute. discriminate.
  - destruct (proj2 base64_roundtrip (str "Zm9vYg==")) as (b & Hb & H).
    + reflexivity.
    + apply H. vm_compute in Hb. apply Ok_injective in Hb. subst b.
      vm_compute. discriminate.
Defined.

(** C6 does not hold of every valid string: "QR==" is valid standard
    base 64, decodes to the byte 0x41 and is encoded back as "QQ==". *)
Lemma noncanonical_base64_not_restored :
  valid_b64 (str "QR==") = true
  /\ b642u8a (str "QR==") = Ok [x41]
  /\ (b <- b642u8a (str "QR==") ;; u8a2b64 b) = Ok (str "QQ==")
  /\ str "QQ==" <> str "QR==".
Proof.
  split; [reflexivity|]. split; [reflexivity|]. split; [reflexivity|].
  discriminate.
Qed.

(** C7, an instance: a salt of length 1 modulo 4, a ciphertext with
    characters outside the alphabet. *)
Lemma undecodable_base64_is_rejected_witness :
  hash (str "x") (str "QUJDR") = Err InvalidCharacterError
  /\ decrypt (str "!!!!") (str "AAAA") (str "key123")
     = Err InvalidCharacterError.
Proof.
  destruct (undecodable_base64_is_rejected (HE := checksum_engine_conforming))
    as (Hhash & Hdecrypt & _).
  split.
  - apply Hhash. reflexivity.
  - apply Hdecrypt. right. reflexivity.
Defined.

(** C7 does not hold of every invalid string: "QQ" lacks its padding and
    " Q Q = = " has whitespace in it, so neither is valid standard base 64,
    and both are decoded, to the byte 0x41. *)
Lemma invalid_base64_is_accepted :
  valid_b64 (str "QQ") = false
  /\ valid_b64 (str " Q Q = = ") = false
  /\ b642u8a (str "QQ") = Ok [x41]
  /\ b642u8a (str " Q Q = = ") = Ok [x41]
  /\ hash (str "x") (str "QQ")
     = Ok (base64_encode
             (PBKDF2_HMAC_SHA512 (TextEncoder_encode (str "x")) [x41]
                1000 64)).
Proof. repeat split; vm_compute; reflexivity. Qed.

(** X19, an instance: on a source that counts, the two IVs differ. *)
Lemma successive_encrypt_ivs_witness :
  exists e1 e2,
    fst (encrypt (str "a") (str "k") counting_source) = Ok e1
    /\ fst (encrypt (str "a") (str "k")
              (snd (encrypt (str "a") (str "k") counting_source))) = Ok e2
    /\ iv e1 <> iv e2.
Proof.
  destruct (successive_encrypt_ivs (HE := checksum_engine_conforming)
              (str "a") (str "k") counting_source)
    as (e1 & e2 & H1 & H2 & _ & _ & Hiv & _).
  - vm_compute. discriminate.
  - exists e1, e2. split; [exact H1|]. split; [exact H2|].
    intros H. apply Hiv in H. vm_compute in H. discriminate H.
Defined.

(** C10, an instance: the salt drawn from the source that counts. *)
Example salt_of_counting_source :
  fst (salt counting_source)
  = Ok (str ("AAECAwQFBgcICQoLDA0ODxAREhMUFRYXGBkaGxwdHh8gISIjJCUmJygp"
             ++ "KissLS4vMDEyMzQ1Njc4OTo7PD0+Pw=="))
  /\ b642u8a
       (str ("AAECAwQFBgcICQoLDA0ODxAREhMUFRYXGBkaGxwdHh8gISIjJCUmJygp"
             ++ "KissLS4vMDEyMzQ1Njc4OTo7PD0+Pw=="))
     = Ok (window counting_source 64).
Proof. split; vm_compute; reflexivity. Qed.

(** C9, an instance: "QQ==" and "QR==" both decode to the byte 0x41. *)
Lemma hash_depends_on_salt_bytes_witness :
  hash (str "hello") (str "QQ==") = hash (str "hello") (str "QR==").
Proof.
  apply hash_depends_on_salt_bytes. reflexivity.
Defined.

(* ================================================================== *)
(** ** Further runs on the checksum engine *)

(** X1, an instance of each case: four bytes, and 200000. *)
Lemma u8a2b64_length_witness :
  (exists s,
      u8a2b64 [x66; x6f; x6f; x62] = Ok s
      /\ N.of_nat (length s)
         = 4 * ((N.of_nat (length [x66; x6f; x6f; x62]) + 2) / 3))
  /\ u8a2b64 (repeat x00 (N.to_nat 200000)) = Err RangeError.
Proof.
  split.
  - apply (proj1 (u8a2b64_length [x66; x6f; x6f; x62])).
    vm_compute. discriminate.
  - apply (proj2 (u8a2b64_length (repeat x00 (N.to_nat 200000)))).
    rewrite repeat_length.
    change (max_arguments < N.of_nat (N.to_nat 200000)).
    rewrite N2Nat.id. reflexivity.
Defined.

(** X3, an instance: "hello" with a salt of three bytes. *)
Lemma hash_length_witness :
  exists h bits,
    hash (str "hello") (str "AAEC") = Ok h
    /\ length h = 88%nat
    /\ canonical_b64 h = true
    /\ b642u8a h = Ok bits
    /\ length bits = 64%nat.
Proof.
  apply (hash_length (HE := checksum_engine_conforming) _ _
           [x00; x01; x02]).
  reflexivity.
Defined.

(** "H" and the euro sign: two code units, four bytes of UTF-8. *)
Definition H_euro : DOMString := [0x48; 0x20AC].

(** X4, an instance: a plaintext of two code units and four bytes. *)
Lemma encrypt_sizes_witness :
  exists e data,
    fst (encrypt H_euro (str "key123") counting_source) = Ok e
    /\ length (iv e) = 88%nat
    /\ b642u8a (ciphertext e) = Ok data
    /\ length data = (length (TextEncoder_encode H_euro) + 16)%nat.
Proof.
  apply (encrypt_sizes (HE := checksum_engine_conforming)
           H_euro (str "key123") counting_source).
  vm_compute. discriminate.
Defined.

(** X5, an instance. *)
Lemma ciphertext_size_bounds_witness :
  exists e data,
    fst (encrypt H_euro (str "key123") counting_source) = Ok e
    /\ b642u8a (ciphertext e) = Ok data
    /\ (length H_euro + 16 <= length data <= 3 * length H_euro + 16)%nat.
Proof.
  apply (ciphertext_size_bounds (HE := checksum_engine_conforming)).
  - unfold H_euro. repeat constructor.
  - vm_compute. discriminate.
Defined.

(** X6, an instance: a salt broken over two lines. *)
Lemma b642u8a_ignores_whitespace_witness :
  b642u8a (str "AAEC" ++ [10] ++ str "Aw==" ++ [13; 10])
  = b642u8a (str "AAECAw==").
Proof.
  apply b642u8a_ignores_whitespace. reflexivity.
Defined.

(** X8, an instance: eight characters and two of padding. *)
Lemma b642u8a_length_witness :
  N.of_nat (length [x00; x01; x02; x03])
  = 3 * N.of_nat (length (forgiving_strip (str "AAECAw=="))) / 4.
Proof.
  apply b642u8a_length. reflexivity.
Defined.


(** X10, an instance: the ciphertext and iv of "secret message" with a
    line feed, without padding and with other unused bits. *)
Lemma decrypt_depends_on_decoded_bytes_witness :
  decrypt (str "wdbXx9PDmNTfyM/c2drz59vP" ++ [10]
             ++ str "w7ern5OHe29jV0s/")
    (str ("AAECAwQFBgcICQoLDA0ODxAREhMUFRYXGBkaGxwdHh8gISIjJCUmJygp"
          ++ "KissLS4vMDEyMzQ1Njc4OTo7PD0+P3")) (str "key123")
  = decrypt (str "wdbXx9PDmNTfyM/c2drz59vPw7ern5OHe29jV0s/")
      (str ("AAECAwQFBgcICQoLDA0ODxAREhMUFRYXGBkaGxwdHh8gISIjJCUmJygp"
            ++ "KissLS4vMDEyMzQ1Njc4OTo7PD0+Pw==")) (str "key123").
Proof.
  apply decrypt_depends_on_decoded_bytes; vm_compute; reflexivity.
Defined.

(** X11, an instance: a lone lead surrogate and a lone trail surrogate. *)
Lemma hash_depends_on_text_encoding_witness :
  hash [0x61; 0xD800] (str "AAEC") = hash [0x61; 0xDFFF] (str "AAEC").
Proof.
  apply hash_depends_on_text_encoding. reflexivity.
Defined.

(** X12, an instance: the secret U+D800 and the secret U+FFFD. *)
Lemma secret_is_its_encoding_witness :
  (forall plaintext rs,
      encrypt plaintext [0xD800] rs = encrypt plaintext [0xFFFD] rs)
  /\ (forall ciphertext iv,
         decrypt ciphertext iv [0xD800] = decrypt ciphertext iv [0xFFFD]).
Proof.
  apply secret_is_its_encoding. reflexivity.
Defined.

(** X13, an instance. *)
Lemma hash_key_material_injective_witness :
  str "hello" = [0x68; 0x65; 0x6C; 0x6C; 0x6F].
Proof.
  apply hash_key_material_injective; reflexivity.
Defined.

(** X14, an instance: a plaintext with U+FEFF first and a lone surrogate
    last. *)
Lemma decrypt_encrypt_normalises_witness :
  exists e,
    fst (encrypt [0xFEFF; 0x68; 0x69; 0xD800] (str "key123")
           counting_source) = Ok e
    /\ decrypt (ciphertext e) (iv e) (str "key123")
       = Ok (flat_map utf16_units
               (drop_BOM (to_scalar_values [0xFEFF; 0x68; 0x69; 0xD800]))).
Proof.
  destruct (decrypt_encrypt_normalises (HE := checksum_engine_conforming)
              [0xFEFF; 0x68; 0x69; 0xD800] (str "key123") counting_source)
    as [Hd Hr].
  - repeat constructor.
  - destruct Hr as [e He]; [vm_compute; discriminate|].
    exists e. split; [exact He|exact (Hd e He)].
Defined.

(** That plaintext comes back as "hi" and U+FFFD. *)
Example normalised_plaintext :
  flat_map utf16_units
    (drop_BOM (to_scalar_values [0xFEFF; 0x68; 0x69; 0xD800]))
  = [0x68; 0x69; 0xFFFD].
Proof. reflexivity. Qed.

(** X15, an instance: the bytes 0xC0 0x80 encrypted as they are come back
    as two U+FFFD. *)
Lemma decrypt_returns_well_formed_witness :
  well_formed [0xFFFD; 0xFFFD] = true.
Proof.
  apply (decrypt_returns_well_formed
           (str "PH2CBYgLjhGUF5odoCOmKawv")
           (base64_encode (window zero_source 64)) (str "k")).
  vm_compute. reflexivity.
Defined.

(** X16, an instance: the empty ciphertext. *)
Lemma decrypt_rejects_short_data_witness :
  decrypt [] (str "AAAA") (str "key123") = Err OperationError.
Proof.
  apply (decrypt_rejects_short_data (HE := checksum_engine_conforming)
           _ _ _ [x00; x00; x00] []).
  - reflexivity.
  - reflexivity.
  - cbn [length]. lia.
Defined.


(** X21, an instance: the ciphertext of "secret message" with the last
    byte of its tag changed. *)
Lemma decrypt_rejects_altered_tag_witness :
  decrypt (str "wdbXx9PDmNTfyM/c2drz59vPw7ern5OHe29jV0s+")
    (str ("AAECAwQFBgcICQoLDA0ODxAREhMUFRYXGBkaGxwdHh8gISIjJCUmJygp"
          ++ "KissLS4vMDEyMzQ1Njc4OTo7PD0+Pw==")) (str "key123")
  = Err OperationError.
Proof.
  apply (decrypt_rejects_altered_tag (HE := checksum_engine_conforming)
           (str "secret message") (str "key123") counting_source
           {| iv :=
                str ("AAECAwQFBgcICQoLDA0ODxAREhMUFRYXGBkaGxwdHh8gISIjJCUm"
                     ++ "JygpKissLS4vMDEyMzQ1Njc4OTo7PD0+Pw==");
              ciphertext :=
                str "wdbXx9PDmNTfyM/c2drz59vPw7ern5OHe29jV0s/" |}
           (str "wdbXx9PDmNTfyM/c2drz59vPw7ern5OHe29jV0s+")
           (firstn 14
              (decode_loop
                 (str "wdbXx9PDmNTfyM/c2drz59vPw7ern5OHe29jV0s/") 0 0))
           (skipn 14
              (decode_loop
                 (str "wdbXx9PDmNTfyM/c2drz59vPw7ern5OHe29jV0s/") 0 0))
           (skipn 14
              (decode_loop
                 (str "wdbXx9PDmNTfyM/c2drz59vPw7ern5OHe29jV0s+") 0 0))).
  - vm_compute. reflexivity.
  - vm_compute. reflexivity.
  - reflexivity.
  - reflexivity.
  - vm_compute. discriminate.
  - vm_compute. reflexivity.
Defined.
